(** * BlingFire: one-best BPE token segmentation

    A shallow embedding of [FATokenSegmentationTools_1best_bpe_t::Process]
    (blingfireclient.library/inc/FATokenSegmentationTools_1best_bpe_t.h).

    Conventions.
    - Input positions ([start], [i], [_Start], [_End], the entries of
      [pTos]) are C [int]s that only ever hold values in [0, InSize);
      they are represented in [nat] so that they index lists directly.
    - Token ids, automaton states, Mealy output weights, [InSize] and
      [MaxOutSize] are caller- or model-supplied [int]s and are kept in [Z].
      Arithmetic is unbounded: signed overflow is undefined in C++ and is
      outside the model (it can only arise from a [SumOw] or an
      [ActualOutSize] beyond [INT_MAX]).
    - [std::vector] / raw arrays are lists read with [!!!] and updated with
      [<[ i := x ]>]; every access of the source is in range whenever the
      arcs lie inside the input, which [populate_in_range] establishes. *)

From Stdlib Require Import ZArith String Ascii Lia.
From stdpp Require Import base numbers list sorting.

Local Open Scope Z_scope.

(** ** The external collaborators *)

(** [FALimits::MaxArrSize], the constant of FALimits.h that bounds the size
    of every array the library accepts; its value is left abstract. *)
Class FALimits := { MaxArrSize : Z }.

(** The four read-only automaton interfaces bound by [SetConf]:
    [m_pDfa->GetInitial], [m_pMealy->GetDestOw], [m_pDfa->IsFinal] and
    [m_pI2Info->Get].  [GetDestOw State Iw] returns the destination state
    ([-1] when there is no transition) and the output weight written through
    [&Ow].  [I2Info_Get Key] returns the value array; [Count] is its length. *)
Class Model := {
  GetInitial : Z;
  GetDestOw : Z → Z → Z * Z;
  IsFinal : Z → bool;
  I2Info_Get : Z → list Z
}.

(** ** Arcs *)

Record _TArc := mkArc { _Start : nat; _End : nat; _Id : Z }.

Global Instance _TArc_eq_dec : EqDecision _TArc.
Proof. solve_decision. Defined.

(** The comparator handed to [std::qsort]. *)
Definition arc_compare (pA pB : _TArc) : Z :=
  if _Id pA <? _Id pB then -1
  else if _Id pA =? _Id pB then
    if (_Start pA <? _Start pB)%nat then -1
    else if (_Start pA =? _Start pB)%nat then 0
    else 1
  else 1.

Definition arc_le (a b : _TArc) : Prop := arc_compare a b ≤ 0.

(** [std::qsort] is a library routine.  All that C guarantees about it is
    that the array ends up a rearrangement of itself, ordered with respect
    to the comparator; the order of elements that compare equal is
    unspecified. *)
Class QSort := {
  qsort : list _TArc → list _TArc;
  qsort_perm : ∀ l, qsort l ≡ₚ l;
  qsort_sorted : ∀ l, Sorted arc_le (qsort l)
}.

(** ** Outcome of a call *)

(** A call either returns normally ([Returned], with the value returned and
    the final contents of the output buffer), is aborted by a failing
    [LogAssert] ([LogAssertFailed], with the buffer as it was at that
    moment), or is still turning in the copy loop when the iteration budget
    of the model is used up ([OutOfFuel]). *)
Inductive Outcome :=
| Returned (ActualOutSize : Z) (pOut : list Z)
| LogAssertFailed (pOut : list Z)
| OutOfFuel.

(** Modelled from the spec: the [LogAssert] macro of FASecurity.h.  Unlike
    [DebugLogAssert] it is active in every build; a violated condition is
    fatal to the call and is surfaced to the caller, so nothing after it
    runs.  [k] is the rest of the call. *)
Definition LogAssert (cond : bool) (pOut : list Z) (k : Outcome) : Outcome :=
  if cond then k else LogAssertFailed pOut.

(** ** Arc enumeration *)

Section Enumeration.
Context `{M : Model}.

(** The inner loop [for (i = start; i < InSize; ++i)], run over the
    input from position [i] on ([rest] is [pIn[i..InSize)]).
    [None] stands for the failing [LogAssert (1 <= Count && ...)];
    the debug-only [DebugLogAssert (0 <= Ow)] is compiled out. *)
Fixpoint scan (rest : list Z) (start i : nat) (State SumOw : Z)
    (arcs : list _TArc) (TokenUnknown : bool) : option (list _TArc * bool) :=
  match rest with
  | [] => Some (arcs, TokenUnknown)
  | Iw :: rest' =>
      let '(State', Ow) := GetDestOw State Iw in
      if State' =? -1 then Some (arcs, TokenUnknown)
      else
        let SumOw' := SumOw + Ow in
        if IsFinal State' then
          match I2Info_Get SumOw' with
          | [] => None
          | id :: _ =>
              scan rest' start (S i) State' SumOw'
                   (arcs ++ [mkArc start i id]) false
          end
        else scan rest' start (S i) State' SumOw' arcs TokenUnknown
  end.

(** The [if (TokenUnknown)] block. *)
Definition fallback (arcs : list _TArc) (start : nat) (UnkId : Z)
    : list _TArc :=
  let ArcCount := length arcs in
  match arcs !! (ArcCount - 1)%nat with
  | Some a =>
      if bool_decide (0 < ArcCount)%nat && (UnkId =? _Id a)
      then <[(ArcCount - 1)%nat := mkArc (_Start a) start (_Id a)]> arcs
      else arcs ++ [mkArc start start UnkId]
  | None => arcs ++ [mkArc start start UnkId]
  end.

(** The outer loop [for (start = 0; start < InSize; ++start)]; [suffix]
    is [pIn[start..InSize)]. *)
Fixpoint populate (suffix : list Z) (start : nat) (UnkId : Z)
    (arcs : list _TArc) : option (list _TArc) :=
  match suffix with
  | [] => Some arcs
  | _ :: suffix' =>
      match scan suffix start start GetInitial 0 arcs true with
      | None => None
      | Some (arcs', TokenUnknown) =>
          populate suffix' (S start) UnkId
            (if TokenUnknown then fallback arcs' start UnkId else arcs')
      end
  end.
End Enumeration.

(** ** Cover construction *)

(** The three parallel tables carved out of [tos_ids]: the first [InSize]
    ints, the next [InSize] ints, and the first [InSize] bytes of the last
    third. *)
Record Cover := mkCover {
  pTos : list nat;
  pIds : list Z;
  pIntermediate : list Z
}.

Definition cover_init (InSize : nat) (UnkId : Z) : Cover :=
  mkCover (replicate InSize 0%nat) (replicate InSize UnkId)
          (replicate InSize 0).

(** [memset (p + off, v, count)]. *)
Definition memset (p : list Z) (off : nat) (v : Z) (count : nat) : list Z :=
  list_inserts off (replicate count v) p.

(** The test guarding a merge. *)
Definition available (InSize : nat) (c : Cover) (a : _TArc) : bool :=
  (pIntermediate c !!! _Start a =? 0) &&
  ((_End a + 1 =? InSize)%nat || (pIntermediate c !!! (_End a + 1)%nat =? 0)).

(** One turn of [for (i = 0; i < ArcCount; ++i)]. *)
Definition cover_step (InSize : nat) (c : Cover) (a : _TArc) : Cover :=
  if available InSize c a then
    let IntermediateCount := (_End a - _Start a)%nat in
    mkCover (<[_Start a := _End a]> (pTos c))
            (<[_Start a := _Id a]> (pIds c))
            (if bool_decide (0 < IntermediateCount)%nat
             then memset (pIntermediate c) (_Start a + 1) 1 IntermediateCount
             else pIntermediate c)
  else c.

Definition cover_arcs (InSize : nat) (arcs : list _TArc) (c : Cover) : Cover :=
  foldl (cover_step InSize) c arcs.

(** ** Copying the results *)

(** The final [for (start = 0; start < InSize; start++)] loop.  Its
    counter is reassigned from [pTos] inside the body, so nothing in its
    text bounds the number of turns; [fuel] is the number of turns the
    model is willing to run. *)
Fixpoint copy_results (fuel : nat) (InSize : nat) (c : Cover)
    (MaxOutSize : Z) (start ActualOutSize : nat) (pOut : list Z)
    : option (Z * list Z) :=
  if (start <? InSize)%nat then
    match fuel with
    | O => None
    | S fuel' =>
        let end_ := pTos c !!! start in
        let id := pIds c !!! start in
        let pOut' :=
          if Z.of_nat ActualOutSize + 3 <=? MaxOutSize then
            <[(ActualOutSize + 2)%nat := Z.of_nat end_]>
              (<[(ActualOutSize + 1)%nat := Z.of_nat start]>
                 (<[ActualOutSize := id]> pOut))
          else pOut in
        copy_results fuel' InSize c MaxOutSize (end_ + 1)%nat
                     (ActualOutSize + 3)%nat pOut'
    end
  else Some (Z.of_nat ActualOutSize, pOut).

(** ** Process *)

(** [pIn] holds at least [InSize] code units (the caller's contract); the
    call reads the first [InSize] of them.  [pOut] is the caller's buffer,
    of which the call may write the first [MaxOutSize] cells. *)
Section Process.
Context `{L : FALimits} `{M : Model} `{Q : QSort}.

Definition Process (fuel : nat) (pIn : list Z) (InSize : Z)
    (pOut : list Z) (MaxOutSize : Z) (UnkId : Z) : Outcome :=
  if 0 >=? InSize then Returned 0 pOut
  else
    LogAssert (InSize <=? MaxArrSize) pOut
      (let n := Z.to_nat InSize in
       match populate (take n pIn) 0 UnkId [] with
       | None => LogAssertFailed pOut
       | Some arcs =>
           let c := cover_arcs n (qsort arcs) (cover_init n UnkId) in
           match copy_results fuel n c MaxOutSize 0 0 pOut with
           | None => OutOfFuel
           | Some (ActualOutSize, pOut') => Returned ActualOutSize pOut'
           end
       end).
End Process.

(** ** The logical sequence of triples *)

(** A triple <TokenId, From, To>. *)
Definition Triple : Type := Z * nat * nat.

(** The walk of the specification (section 4.5):
    [pos <- 0; while pos < N: append (ids[pos], pos, tos[pos]);
    pos <- tos[pos] + 1].  It shares the iteration budget of
    [copy_results]. *)
Fixpoint reconstruct (fuel : nat) (InSize : nat) (c : Cover) (pos : nat)
    : option (list Triple) :=
  if (pos <? InSize)%nat then
    match fuel with
    | O => None
    | S fuel' =>
        cons (pIds c !!! pos, pos, pTos c !!! pos)
          <$> reconstruct fuel' InSize c (pTos c !!! pos + 1)%nat
    end
  else Some [].

(** The position the copy loop is at when it starts its [k]-th turn. *)
Fixpoint walk_position (c : Cover) (k : nat) : nat :=
  match k with
  | O => 0%nat
  | S k' => (pTos c !!! walk_position c k' + 1)%nat
  end.

(** Laying triples out as [id0, s0, e0, id1, s1, e1, ...]. *)
Definition flatten_triples (ts : list Triple) : list Z :=
  ts ≫= λ '(id, s, e), [id; Z.of_nat s; Z.of_nat e].

(** Storing, from offset [ActualOutSize] on, each triple for which the
    whole of it still fits below [MaxOutSize] (specification, section
    4.5). *)
Fixpoint store_fitting (MaxOutSize : Z) (ts : list Triple)
    (ActualOutSize : nat) (pOut : list Z) : list Z :=
  match ts with
  | [] => pOut
  | (id, s, e) :: ts' =>
      store_fitting MaxOutSize ts' (ActualOutSize + 3)
        (if Z.of_nat ActualOutSize + 3 <=? MaxOutSize then
           <[(ActualOutSize + 2)%nat := Z.of_nat e]>
             (<[(ActualOutSize + 1)%nat := Z.of_nat s]>
                (<[ActualOutSize := id]> pOut))
         else pOut)
  end.

(** The function [segment(input, unk_id) -> list[(id, start, end)]] of the
    specification (section 2): enumeration, sort and cover as in [Process],
    followed by the walk [reconstruct].  [Aborted] and [Unfinished] mirror
    [LogAssertFailed] and [OutOfFuel]. *)
Inductive Segmentation :=
| Triples (ts : list Triple)
| Aborted
| Unfinished.

Definition segment `{L : FALimits} `{M : Model} `{Q : QSort}
    (fuel : nat) (pIn : list Z) (InSize : Z) (UnkId : Z) : Segmentation :=
  if 0 >=? InSize then Triples []
  else if InSize <=? MaxArrSize then
    let n := Z.to_nat InSize in
    match populate (take n pIn) 0 UnkId [] with
    | None => Aborted
    | Some arcs =>
        let c := cover_arcs n (qsort arcs) (cover_init n UnkId) in
        match reconstruct fuel n c 0 with
        | None => Unfinished
        | Some ts => Triples ts
        end
    end
  else Aborted.

(** The result of a call as the specification words it (section 4.5):
    the return value is the required size, three per triple, and triples
    are stored only while the prefix still fits. *)
Definition deliver (MaxOutSize : Z) (pOut : list Z) (r : Segmentation)
    : Outcome :=
  match r with
  | Triples ts =>
      Returned (3 * Z.of_nat (length ts)) (store_fitting MaxOutSize ts 0 pOut)
  | Aborted => LogAssertFailed pOut
  | Unfinished => OutOfFuel
  end.

(** ** Models and vocabularies *)

Section Vocabulary.
Context `{M : Model}.

(** The automaton run over a whole word: the state reached and the sum of
    the output weights, or [None] once a transition is missing. *)
Fixpoint run (State SumOw : Z) (w : list Z) : option (Z * Z) :=
  match w with
  | [] => Some (State, SumOw)
  | Iw :: w' =>
      let '(State', Ow) := GetDestOw State Iw in
      if State' =? -1 then None else run State' (SumOw + Ow) w'
  end.

(** What the model says about a word read from the initial state. *)
Inductive Verdict :=
| NoMatch
| Match (id : Z)
| MissingInfo.

Definition verdict (w : list Z) : Verdict :=
  match run GetInitial 0 w with
  | None => NoMatch
  | Some (State, SumOw) =>
      if IsFinal State then
        match I2Info_Get SumOw with
        | [] => MissingInfo
        | id :: _ => Match id
        end
      else NoMatch
  end.
End Vocabulary.

(** A vocabulary: segments (as code-unit sequences) with their ids. *)
Definition Vocab : Type := list (list Z * Z).

Fixpoint vocab_lookup (V : Vocab) (w : list Z) : option Z :=
  match V with
  | [] => None
  | (key, id) :: V' => if decide (key = w) then Some id else vocab_lookup V' w
  end.

(** The model recognises exactly the segments of [V], with their ids. *)
Definition realizes `{M : Model} (V : Vocab) : Prop :=
  ∀ w, w ≠ [] →
    verdict w = match vocab_lookup V w with Some id => Match id | None => NoMatch end.

(** The arcs that start at [start], read off the vocabulary: one for each
    prefix [pre ++ take k rest] that is a segment. *)
Fixpoint vocab_scan (V : Vocab) (pre rest : list Z) (start i : nat)
    : list _TArc :=
  match rest with
  | [] => []
  | Iw :: rest' =>
      match vocab_lookup V (pre ++ [Iw]) with
      | Some id => [mkArc start i id]
      | None => []
      end ++ vocab_scan V (pre ++ [Iw]) rest' start (S i)
  end.

Fixpoint vocab_populate (V : Vocab) (suffix : list Z)
    (start : nat) (UnkId : Z) (arcs : list _TArc) : list _TArc :=
  match suffix with
  | [] => arcs
  | _ :: suffix' =>
      let found := vocab_scan V [] suffix start start in
      vocab_populate V suffix' (S start) UnkId
        (if bool_decide (found = [])
         then fallback arcs start UnkId else arcs ++ found)
  end.

(** *** The vocabulary of the worked scenarios *)

(** Code units of an 8-bit string. *)
Fixpoint codes (s : string) : list Z :=
  match s with
  | EmptyString => []
  | String a s' => Z.of_nat (nat_of_ascii a) :: codes s'
  end.

Definition scenario_vocab : Vocab :=
  [(codes "a", 1); (codes "ab", 2); (codes "b", 3); (codes "abc", 4)].

(** A transducer for it.  States: 0 initial, 1 after "a", 2 after "ab",
    3 after "abc", 4 after "b"; the weights number the segments in
    lexicographic order ("a" 0, "ab" 1, "abc" 2, "b" 3). *)
Definition scenario_model : Model :=
  {| GetInitial := 0;
     GetDestOw State Iw :=
       if (State =? 0) && (Iw =? 97) then (1, 0)
       else if (State =? 0) && (Iw =? 98) then (4, 3)
       else if (State =? 1) && (Iw =? 98) then (2, 1)
       else if (State =? 2) && (Iw =? 99) then (3, 1)
       else (-1, 0);
     IsFinal State := bool_decide (1 ≤ State ≤ 4);
     I2Info_Get Key :=
       if Key =? 0 then [1]
       else if Key =? 1 then [2]
       else if Key =? 2 then [4]
       else if Key =? 3 then [3]
       else [] |}.

(** A model without a single final state. *)
Definition empty_model : Model :=
  {| GetInitial := 0;
     GetDestOw State Iw := (-1, 0);
     IsFinal State := false;
     I2Info_Get Key := [] |}.

(** A model that gives the segments "a" and "ab" the same id 7. *)
Definition duplicate_id_model : Model :=
  {| GetInitial := 0;
     GetDestOw State Iw :=
       if (State =? 0) && (Iw =? 97) then (1, 0)
       else if (State =? 1) && (Iw =? 98) then (2, 1)
       else (-1, 0);
     IsFinal State := bool_decide (1 ≤ State ≤ 2);
     I2Info_Get Key := [7] |}.

(** A model whose only segment, "a", carries the id 100. *)
Definition unk_valued_model : Model :=
  {| GetInitial := 0;
     GetDestOw State Iw :=
       if (State =? 0) && (Iw =? 97) then (1, 0) else (-1, 0);
     IsFinal State := bool_decide (State = 1);
     I2Info_Get Key := [100] |}.

Definition small_limits : FALimits := {| MaxArrSize := 1000 |}.

(** The tables built for "abcx" over the scenario vocabulary: "abc" is
    placed at 0 (after "a" and "ab"), "b" at 1 and the unknown arc [2, 3]
    are refused, so positions 1, 2 and 3 keep [pTos = 0]. *)
Definition abcx_cover : Cover :=
  mkCover [2; 0; 0; 0]%nat [4; 100; 100; 100] [0; 1; 1; 0].

(** Two arcs tie under [arc_compare] exactly when they agree on id and
    start. *)
Definition arc_key (a : _TArc) : Z * nat := (_Id a, _Start a).

(** ** Notions used to state the properties *)

(** An arc lies inside an input of [InSize] code units and starts before
    [bound]. *)
Definition arc_in_range (InSize bound : nat) (a : _TArc) : Prop :=
  (_Start a ≤ _End a)%nat ∧ (_End a < InSize)%nat ∧ (_Start a < bound)%nat.

(** The triples [ts] cover [pos, InSize - 1] contiguously: each starts
    where the previous one ended plus one, the first at [pos], and the last
    ends at [InSize - 1]. *)
Fixpoint partitions (pos InSize : nat) (ts : list Triple) : Prop :=
  match ts with
  | [] => pos = InSize
  | (_, s, e) :: ts' =>
      s = pos ∧ (s ≤ e < InSize)%nat ∧ partitions (e + 1) InSize ts'
  end.

(** Sorting [before] into [after] keeps insertion order among ties: for
    every (id, start), the arcs carrying it come in the same sequence. *)
Definition keeps_insertion_order (before after : list _TArc) : Prop :=
  ∀ key, filter (λ a, arc_key a = key) after
       = filter (λ a, arc_key a = key) before.

(** Whether the [i]-th arc is merged when its turn comes in the cover
    loop started from the tables [c0]. *)
Definition accepted_at (InSize : nat) (c0 : Cover) (arcs : list _TArc)
    (i : nat) : bool :=
  match arcs !! i with
  | Some a => available InSize (cover_arcs InSize (take i arcs) c0) a
  | None => false
  end.

(** The code units [pIn[s..e]]. *)
Definition sub (pIn : list Z) (s e : nat) : list Z :=
  take (S e - s) (drop s pIn).

(** What the inner loop finds from [start], read off the verdicts of the
    model on the words [pre ++ take k rest]: [None] when one of them is
    accepted without info. *)
Fixpoint model_scan `{M : Model} (pre rest : list Z) (start i : nat)
    : option (list _TArc) :=
  match rest with
  | [] => Some []
  | Iw :: rest' =>
      match verdict (pre ++ [Iw]) with
      | MissingInfo => None
      | Match id =>
          cons (mkArc start i id)
            <$> model_scan (pre ++ [Iw]) rest' start (S i)
      | NoMatch => model_scan (pre ++ [Iw]) rest' start (S i)
      end
  end.

(** What the outer loop maintains about the arc buffer once the starts
    below [start] have been enumerated over the input [pIn]: every arc
    lies in the input and either carries [UnkId] or labels an accepted
    substring with its id; every accepted substring with another id than
    [UnkId] has its arc; every start from which nothing is accepted lies
    inside an arc that carries [UnkId]. *)
Definition enumerated `{M : Model} (pIn : list Z) (UnkId : Z) (start : nat)
    (arcs : list _TArc) : Prop :=
  Forall (λ a, arc_in_range (length pIn) start a ∧
               (_Id a = UnkId ∨
                verdict (sub pIn (_Start a) (_End a)) = Match (_Id a))) arcs ∧
  (∀ s e id,
     (s < start)%nat → (s ≤ e < length pIn)%nat →
     verdict (sub pIn s e) = Match id → id ≠ UnkId → mkArc s e id ∈ arcs) ∧
  (∀ p,
     (p < start)%nat →
     (∀ e id, (p ≤ e < length pIn)%nat → verdict (sub pIn p e) ≠ Match id) →
     ∃ a, a ∈ arcs ∧ _Id a = UnkId ∧ (_Start a ≤ p ≤ _End a)%nat).

(** A model that accepts "a" but has no info for it. *)
Definition infoless_model : Model :=
  {| GetInitial := 0;
     GetDestOw State Iw :=
       if (State =? 0) && (Iw =? 97) then (1, 0) else (-1, 0);
     IsFinal State := bool_decide (State = 1);
     I2Info_Get Key := [] |}.

(** What the cover loop maintains, [merged] being the set of the arcs
    merged so far: the tables have [InSize] entries; merged arcs lie in
    the input; two merged arcs with different starts are disjoint or the
    later-starting one lies within the other; a byte of [pIntermediate] is
    set exactly at the positions that are inside a merged arc but not its
    start; [pTos] at the start of a merged arc is at least its end; and at
    each position the pair [pTos], [pIds] is either untouched, with no
    merged arc starting there, or a merged arc. *)
Definition cover_inv (InSize : nat) (UnkId : Z) (merged : _TArc → Prop)
    (c : Cover) : Prop :=
  length (pTos c) = InSize ∧
  length (pIds c) = InSize ∧
  length (pIntermediate c) = InSize ∧
  (∀ a, merged a → (_Start a ≤ _End a < InSize)%nat) ∧
  (∀ a b, merged a → merged b → (_Start a < _Start b)%nat →
          (_End a < _Start b)%nat ∨ (_End b ≤ _End a)%nat) ∧
  (∀ q, (q < InSize)%nat →
        pIntermediate c !!! q ≠ 0 ↔
        ∃ b, merged b ∧ (_Start b < q ≤ _End b)%nat) ∧
  (∀ b, merged b → (_End b ≤ pTos c !!! _Start b)%nat) ∧
  (∀ p, (p < InSize)%nat →
        (pTos c !!! p = 0%nat ∧ pIds c !!! p = UnkId ∧
         ∀ b, merged b → _Start b ≠ p) ∨
        merged (mkArc p (pTos c !!! p) (pIds c !!! p))).

(** The arcs of the buffer that the cover loop, started from [c0],
    merges. *)
Definition merged_in (InSize : nat) (c0 : Cover) (arcs : list _TArc)
    (a : _TArc) : Prop :=
  ∃ i, arcs !! i = Some a ∧ accepted_at InSize c0 arcs i = true.

(** No other arc of the buffer meets the positions of [a]. *)
Definition isolated (arcs : list _TArc) (a : _TArc) : Prop :=
  ∀ b, b ∈ arcs →
    b = a ∨ (_End b < _Start a)%nat ∨ (_End a < _Start b)%nat.

(** Every position of the input is the whole of an arc of length 1, or
    lies in an isolated arc. *)
Definition well_covered (InSize : nat) (arcs : list _TArc) : Prop :=
  ∀ p, (p < InSize)%nat →
    (∃ a, a ∈ arcs ∧ _Start a = p ∧ _End a = p) ∨
    (∃ a, a ∈ arcs ∧ (_Start a ≤ p ≤ _End a)%nat ∧ isolated arcs a).

(** Position [p] is inside a merged arc, or a merged arc starts there. *)
Definition settled (merged : _TArc → Prop) (c : Cover) (p : nat) : Prop :=
  pIntermediate c !!! p ≠ 0 ∨ ∃ b, merged b ∧ _Start b = p.

(** Nothing is accepted from position [q] of the input. *)
Definition unmatched_from `{M : Model} (pIn : list Z) (q : nat) : Prop :=
  ∀ e id, (q ≤ e < length pIn)%nat → verdict (sub pIn q e) ≠ Match id.

(** No accepted substring of the input has the id [UnkId]. *)
Definition unk_id_unused `{M : Model} (pIn : list Z) (UnkId : Z) : Prop :=
  ∀ s e, (s ≤ e < length pIn)%nat → verdict (sub pIn s e) ≠ Match UnkId.

(** Every code unit inside an accepted substring of the input is itself
    accepted. *)
Definition unit_closed `{M : Model} (pIn : list Z) : Prop :=
  ∀ s e id q,
    (s ≤ e < length pIn)%nat → verdict (sub pIn s e) = Match id →
    (s ≤ q ≤ e)%nat → ∃ id', verdict (sub pIn q q) = Match id'.

(** What the outer loop maintains about the arcs carrying [UnkId] when
    that id is not in use: they end before [start], span only positions
    from which nothing is accepted, come in the buffer in increasing,
    disjoint order, and the last arc of the buffer, if it is one of them,
    ends at [start - 1]. *)
Definition enumerated_unk `{M : Model} (pIn : list Z) (UnkId : Z)
    (start : nat) (arcs : list _TArc) : Prop :=
  (∀ a, a ∈ arcs → _Id a = UnkId →
        (_End a < start)%nat ∧
        ∀ q, (_Start a ≤ q ≤ _End a)%nat → unmatched_from pIn q) ∧
  (∀ i j a b,
     (i < j)%nat → arcs !! i = Some a → arcs !! j = Some b →
     _Id a = UnkId → _Id b = UnkId → (_End a < _Start b)%nat) ∧
  (∀ l, last arcs = Some l → _Id l = UnkId → S (_End l) = start).

(** No two accepted substrings of the input that start at the same
    position have the same id. *)
Definition ids_distinct_per_start `{M : Model} (pIn : list Z) : Prop :=
  ∀ s e1 e2 id,
    (s ≤ e1 < length pIn)%nat → (s ≤ e2 < length pIn)%nat →
    verdict (sub pIn s e1) = Match id → verdict (sub pIn s e2) = Match id →
    e1 = e2.

(** ** The order used for sorting *)

Lemma arc_le_spec a b :
  arc_le a b ↔ _Id a < _Id b ∨ (_Id a = _Id b ∧ (_Start a ≤ _Start b)%nat).
Proof.
  unfold arc_le, arc_compare.
  destruct (Z.ltb_spec (_Id a) (_Id b)); [intuition lia|].
  destruct (Z.eqb_spec (_Id a) (_Id b)); [|intuition lia].
  destruct (Nat.ltb_spec (_Start a) (_Start b)); [intuition lia|].
  destruct (Nat.eqb_spec (_Start a) (_Start b)); intuition lia.
Qed.

Global Instance arc_le_dec a b : Decision (arc_le a b).
Proof. unfold arc_le. apply _. Defined.

Global Instance arc_le_trans : Transitive arc_le.
Proof. intros a b c. rewrite !arc_le_spec. lia. Qed.

Global Instance arc_le_total : Total arc_le.
Proof. intros a b. rewrite !arc_le_spec. lia. Qed.

Lemma arc_le_antisym_key a b : arc_le a b → arc_le b a → arc_key a = arc_key b.
Proof. rewrite !arc_le_spec. unfold arc_key. intros. f_equal; lia. Qed.

(** *** Two conforming sorts *)

(** Straight insertion, which keeps tied arcs in their original order. *)
Fixpoint insert_arc (a : _TArc) (l : list _TArc) : list _TArc :=
  match l with
  | [] => [a]
  | b :: l' => if decide (arc_le a b) then a :: l else b :: insert_arc a l'
  end.

Fixpoint insertion_sort (l : list _TArc) : list _TArc :=
  match l with
  | [] => []
  | a :: l' => insert_arc a (insertion_sort l')
  end.

Lemma insert_arc_perm a l : insert_arc a l ≡ₚ a :: l.
Proof.
  induction l as [|b l IH]; simpl; [done|].
  case_decide; [done|]. rewrite IH. apply Permutation_swap.
Qed.

Lemma insertion_sort_perm l : insertion_sort l ≡ₚ l.
Proof.
  induction l as [|a l IH]; simpl; [done|].
  by rewrite insert_arc_perm, IH.
Qed.

Lemma insert_arc_sorted a l : Sorted arc_le l → Sorted arc_le (insert_arc a l).
Proof.
  induction 1 as [|b l Hl IH Hb]; simpl.
  - repeat constructor.
  - case_decide as Hab.
    + constructor; [by constructor|by constructor].
    + assert (arc_le b a) by (by destruct (total arc_le a b)).
      constructor; [done|].
      destruct Hb as [|c l' Hbc]; simpl in *; [by constructor|].
      case_decide; by constructor.
Qed.

Lemma insertion_sort_sorted l : Sorted arc_le (insertion_sort l).
Proof.
  induction l; simpl; [constructor|by apply insert_arc_sorted].
Qed.

Global Instance stable_qsort : QSort :=
  {| qsort := insertion_sort;
     qsort_perm := insertion_sort_perm;
     qsort_sorted := insertion_sort_sorted |}.

(** Insertion from the other end, which reverses tied arcs. *)
Definition reversing_sort (l : list _TArc) : list _TArc :=
  insertion_sort (reverse l).

Lemma reversing_sort_perm l : reversing_sort l ≡ₚ l.
Proof. unfold reversing_sort. by rewrite insertion_sort_perm, reverse_Permutation. Qed.

Lemma reversing_sort_sorted l : Sorted arc_le (reversing_sort l).
Proof. apply insertion_sort_sorted. Qed.

Definition reversing_qsort : QSort :=
  {| qsort := reversing_sort;
     qsort_perm := reversing_sort_perm;
     qsort_sorted := reversing_sort_sorted |}.

(** *** What every conforming sort agrees on *)

Definition keys_distinct (l : list _TArc) : Prop := NoDup (arc_key <$> l).

Lemma keys_distinct_inj l a b :
  keys_distinct l → a ∈ l → b ∈ l → arc_key a = arc_key b → a = b.
Proof.
  unfold keys_distinct. induction l as [|x l IH]; simpl.
  - by intros _ ?%elem_of_nil.
  - rewrite NoDup_cons. intros [Hx Hl] Ha Hb Hk.
    apply elem_of_cons in Ha as [->|Ha]; apply elem_of_cons in Hb as [->|Hb];
      [done| | |by apply IH].
    + exfalso. apply Hx. rewrite Hk. by apply list_elem_of_fmap_2.
    + exfalso. apply Hx. rewrite <-Hk. by apply list_elem_of_fmap_2.
Qed.

Lemma qsort_unique `{Q : QSort} l :
  keys_distinct l → qsort l = insertion_sort l.
Proof.
  intros Hl. apply (Sorted_unique_strong arc_le).
  - intros a b Ha Hb Hab Hba.
    apply (keys_distinct_inj l); [done| | |by apply arc_le_antisym_key].
    + by rewrite <-(qsort_perm l).
    + by rewrite <-(insertion_sort_perm l).
  - apply qsort_sorted.
  - apply insertion_sort_sorted.
  - by rewrite qsort_perm, insertion_sort_perm.
Qed.

(** ** Enumeration read off the vocabulary *)

Section EnumerationFacts.
Context `{M : Model}.

Lemma run_app State SumOw w1 w2 :
  run State SumOw (w1 ++ w2) =
    run State SumOw w1 ≫= λ '(State', SumOw'), run State' SumOw' w2.
Proof.
  revert State SumOw. induction w1 as [|Iw w1 IH]; intros State SumOw; simpl.
  - done.
  - destruct (GetDestOw State Iw) as [State' Ow].
    destruct (State' =? -1); [done|apply IH].
Qed.

Lemma realizes_dead V pre :
  realizes V → pre ≠ [] → run GetInitial 0 pre = None →
  vocab_lookup V pre = None.
Proof.
  intros HV Hpre Hrun. specialize (HV pre Hpre).
  unfold verdict in HV. rewrite Hrun in HV.
  by destruct (vocab_lookup V pre).
Qed.

Lemma vocab_scan_dead V pre rest start i :
  realizes V → run GetInitial 0 pre = None →
  vocab_scan V pre rest start i = [].
Proof.
  intros HV. revert pre i.
  induction rest as [|Iw rest IH]; intros pre i Hdead; simpl; [done|].
  assert (run GetInitial 0 (pre ++ [Iw]) = None) as Hdead'
    by (by rewrite run_app, Hdead).
  rewrite (realizes_dead V (pre ++ [Iw])); [|done|by destruct pre|done].
  by rewrite IH.
Qed.

(** The inner loop finds exactly the segments of the vocabulary. *)
Lemma scan_vocab V rest :
  realizes V →
  ∀ pre State SumOw start i arcs TokenUnknown,
    run GetInitial 0 pre = Some (State, SumOw) →
    scan rest start i State SumOw arcs TokenUnknown =
      Some (arcs ++ vocab_scan V pre rest start i,
            TokenUnknown && bool_decide (vocab_scan V pre rest start i = [])).
Proof.
  intros HV. induction rest as [|Iw rest IH];
    intros pre State SumOw start i arcs unk Hrun; simpl.
  { by rewrite (right_id_L [] (++)), andb_true_r. }
  assert (Hstep : run GetInitial 0 (pre ++ [Iw]) =
            let '(State', Ow) := GetDestOw State Iw in
            if State' =? -1 then None else Some (State', SumOw + Ow)).
  { rewrite run_app, Hrun. simpl. destruct (GetDestOw State Iw) as [State' Ow].
    by destruct (State' =? -1). }
  assert (pre ++ [Iw] ≠ []) as Hne by (by destruct pre).
  pose proof (HV (pre ++ [Iw]) Hne) as Hv. unfold verdict in Hv.
  destruct (GetDestOw State Iw) as [State' Ow].
  destruct (State' =? -1); simpl in Hstep.
  - rewrite (realizes_dead V (pre ++ [Iw]) HV Hne Hstep).
    rewrite (vocab_scan_dead V (pre ++ [Iw]) rest start (S i) HV Hstep).
    simpl. by rewrite (right_id_L [] (++)), andb_true_r.
  - rewrite Hstep in Hv.
    destruct (IsFinal State').
    + destruct (I2Info_Get (SumOw + Ow)) as [|id ?];
        destruct (vocab_lookup V (pre ++ [Iw])); simplify_eq.
      rewrite (IH (pre ++ [Iw]) State' (SumOw + Ow)) by done.
      by rewrite <-(assoc_L (++)), andb_false_r.
    + destruct (vocab_lookup V (pre ++ [Iw])); simplify_eq.
      by rewrite (IH (pre ++ [Iw]) State' (SumOw + Ow)).
Qed.

Lemma populate_vocab V suffix :
  realizes V →
  ∀ start UnkId arcs,
    populate suffix start UnkId arcs =
      Some (vocab_populate V suffix start UnkId arcs).
Proof.
  intros HV. induction suffix as [|Iw suffix IH]; intros start UnkId arcs.
  { done. }
  cbn [populate vocab_populate].
  rewrite (scan_vocab V (Iw :: suffix) HV []) by done.
  rewrite IH. f_equal. f_equal. simpl.
  case_bool_decide as Hfound; [|done].
  by rewrite Hfound, (right_id_L [] (++)).
Qed.
End EnumerationFacts.

(** *** The scenario transducer recognises the scenario vocabulary *)

Ltac split_codes :=
  repeat match goal with
  | |- context [Z.eqb ?x ?y] =>
      is_var x; destruct (Z.eqb_spec x y); subst; cbn
  end.

Lemma scenario_model_realizes : @realizes scenario_model scenario_vocab.
Proof.
  intros w Hw. unfold verdict.
  destruct w as [|c1 [|c2 [|c3 [|c4 w]]]]; [done|..]; cbn;
    split_codes; try done; repeat (case_decide; simplify_eq; cbn); done.
Qed.

Lemma empty_model_realizes : @realizes empty_model [].
Proof. intros [|c w] Hw; [done|]. done. Qed.

(** Either the inner loop pushed nothing and left [TokenUnknown] alone, or
    it cleared [TokenUnknown] and the buffer now ends with an arc it pushed
    for this start. *)
Lemma scan_outcome `{M : Model} rest :
  ∀ start i State SumOw arcs0 unk arcs unk',
    scan rest start i State SumOw arcs0 unk = Some (arcs, unk') →
    (arcs = arcs0 ∧ unk' = unk) ∨
    (unk' = false ∧ ∃ j id, last arcs = Some (mkArc start j id)).
Proof.
  induction rest as [|Iw rest IH];
    intros start i State SumOw arcs0 unk arcs unk' Hscan; simpl in Hscan.
  { left. by simplify_eq. }
  destruct (GetDestOw State Iw) as [State' Ow].
  destruct (State' =? -1); [left; by simplify_eq|].
  destruct (IsFinal State'); [|by eapply IH].
  destruct (I2Info_Get (SumOw + Ow)) as [|id ?]; [done|].
  apply IH in Hscan as [[-> ->]|[-> Hlast]]; right; [|done].
  split; [done|]. exists i, id. apply last_snoc.
Qed.

(** ** Every arc lies inside the input *)

Lemma arc_in_range_mono InSize bound bound' a :
  (bound ≤ bound')%nat →
  arc_in_range InSize bound a → arc_in_range InSize bound' a.
Proof. unfold arc_in_range. lia. Qed.

Lemma scan_in_range `{M : Model} InSize rest :
  ∀ start i State SumOw arcs unk arcs' unk',
    scan rest start i State SumOw arcs unk = Some (arcs', unk') →
    (start ≤ i)%nat → (i + length rest ≤ InSize)%nat →
    Forall (arc_in_range InSize (S start)) arcs →
    Forall (arc_in_range InSize (S start)) arcs'.
Proof.
  induction rest as [|Iw rest IH];
    intros start i State SumOw arcs unk arcs' unk' Hscan Hi Hn Harcs;
    simpl in *.
  { by simplify_eq. }
  destruct (GetDestOw State Iw) as [State' Ow].
  destruct (State' =? -1); [by simplify_eq|].
  destruct (IsFinal State').
  - destruct (I2Info_Get (SumOw + Ow)) as [|id ?]; [done|].
    eapply IH; [done|lia|lia|].
    apply Forall_app_2; [done|].
    apply Forall_singleton. unfold arc_in_range. simpl. lia.
  - eapply IH; [done|lia|lia|done].
Qed.

Lemma fallback_in_range InSize arcs start UnkId :
  (start < InSize)%nat →
  Forall (arc_in_range InSize start) arcs →
  Forall (arc_in_range InSize (S start)) (fallback arcs start UnkId).
Proof.
  intros Hstart Harcs.
  assert (Forall (arc_in_range InSize (S start)) arcs) as Harcs'.
  { eapply Forall_impl; [done|]. intros a. apply arc_in_range_mono. lia. }
  assert (arc_in_range InSize (S start) (mkArc start start UnkId)) as Hnew.
  { unfold arc_in_range. simpl. lia. }
  unfold fallback.
  destruct (arcs !! (length arcs - 1)%nat) as [a|] eqn:Ha.
  - destruct (bool_decide _ && _).
    + apply Forall_insert; [done|].
      eapply Forall_lookup_1 in Ha; [|exact Harcs].
      unfold arc_in_range in *. simpl. lia.
    + apply Forall_app_2; [done|by apply Forall_singleton].
  - apply Forall_app_2; [done|by apply Forall_singleton].
Qed.

Lemma populate_in_range_from `{M : Model} InSize suffix :
  ∀ start UnkId arcs arcs',
    populate suffix start UnkId arcs = Some arcs' →
    (start + length suffix = InSize)%nat →
    Forall (arc_in_range InSize start) arcs →
    Forall (arc_in_range InSize InSize) arcs'.
Proof.
  induction suffix as [|Iw suffix IH];
    intros start UnkId arcs arcs' Hpop Hn Harcs.
  { cbn [length] in Hn. rewrite Nat.add_0_r in Hn. subst start.
    simpl in Hpop. by simplify_eq. }
  cbn [populate] in Hpop. cbn [length] in Hn.
  destruct (scan (Iw :: suffix) start start GetInitial 0 arcs true)
    as [[arcs1 unk]|] eqn:Hscan; [|done].
  assert (Forall (arc_in_range InSize (S start)) arcs) as Harcs'.
  { eapply Forall_impl; [done|]. intros a. apply arc_in_range_mono. lia. }
  eapply IH; [done|lia|].
  destruct (scan_outcome _ _ _ _ _ _ _ _ _ Hscan) as [[-> ->]|[-> _]].
  - apply fallback_in_range; [lia|done].
  - eapply (scan_in_range InSize); [done|lia|simpl; lia|done].
Qed.

(** Every arc the enumeration leaves in the buffer satisfies
    [0 <= _Start <= _End < InSize], so the cover loop only reads and
    writes inside its tables. *)
Lemma populate_in_range `{M : Model} pIn UnkId arcs :
  populate pIn 0 UnkId [] = Some arcs →
  Forall (λ a, (_Start a ≤ _End a < length pIn)%nat) arcs.
Proof.
  intros Hpop.
  eapply Forall_impl;
    [by eapply (populate_in_range_from (length pIn) pIn 0 UnkId [])|].
  unfold arc_in_range. lia.
Qed.

(** ** The copy loop against the walk of the specification *)

Lemma copy_results_reconstruct fuel InSize c MaxOutSize :
  ∀ start ActualOutSize pOut,
    copy_results fuel InSize c MaxOutSize start ActualOutSize pOut =
      (λ ts, (Z.of_nat ActualOutSize + 3 * Z.of_nat (length ts),
              store_fitting MaxOutSize ts ActualOutSize pOut))
        <$> reconstruct fuel InSize c start.
Proof.
  induction fuel as [|fuel IH]; intros start size pOut; simpl.
  - destruct (start <? InSize)%nat; simpl; [done|]. do 2 f_equal. lia.
  - destruct (start <? InSize)%nat; simpl; [|do 2 f_equal; lia].
    rewrite IH.
    destruct (reconstruct fuel InSize c (pTos c !!! start + 1)) as [ts|];
      simpl; [|done].
    do 2 f_equal. lia.
Qed.

Lemma reconstruct_done fuel InSize c pos :
  (InSize ≤ pos)%nat → reconstruct fuel InSize c pos = Some [].
Proof.
  intros Hpos.
  destruct fuel; simpl; by destruct (Nat.ltb_spec pos InSize); [lia|].
Qed.

Lemma reconstruct_step fuel InSize c pos :
  (pos < InSize)%nat →
  reconstruct (S fuel) InSize c pos =
    cons (pIds c !!! pos, pos, pTos c !!! pos)
      <$> reconstruct fuel InSize c (pTos c !!! pos + 1)%nat.
Proof.
  intros Hpos. simpl. by destruct (Nat.ltb_spec pos InSize); [|lia].
Qed.

(** The [k]-th turn of the walk is at [walk_position c k]. *)
Lemma reconstruct_walk InSize c k :
  ∀ fuel,
    (∀ j, (j < k)%nat → (walk_position c j < InSize)%nat) →
    reconstruct (k + fuel) InSize c 0 =
      app ((λ j, (pIds c !!! walk_position c j, walk_position c j,
                  pTos c !!! walk_position c j)) <$> seq 0 k)
        <$> reconstruct fuel InSize c (walk_position c k).
Proof.
  induction k as [|k IH]; intros fuel Hlt.
  { simpl. by destruct (reconstruct fuel InSize c 0). }
  replace (S k + fuel)%nat with (k + S fuel)%nat by lia.
  rewrite IH by (intros; apply Hlt; lia).
  rewrite reconstruct_step by (apply Hlt; lia).
  rewrite seq_S, fmap_app. cbn [walk_position].
  destruct (reconstruct fuel InSize c _) as [ts|]; [|done].
  simpl. by rewrite <-(assoc_L (++)).
Qed.

(** A walk that returns only triples whose ends are not before their
    starts has produced a contiguous partition. *)
Lemma reconstruct_partitions fuel InSize c :
  ∀ pos ts,
    reconstruct fuel InSize c pos = Some ts →
    (pos ≤ InSize)%nat →
    Forall (λ t : Triple, (t.1.2 ≤ t.2 < InSize)%nat) ts →
    partitions pos InSize ts.
Proof.
  induction fuel as [|fuel IH]; intros pos ts Hrec Hpos Hts; simpl in Hrec;
    destruct (Nat.ltb_spec pos InSize); simplify_eq; try (simpl; lia).
  destruct (reconstruct fuel InSize c _) as [ts'|] eqn:Hrec'; simplify_eq/=.
  apply Forall_cons in Hts as [Ht Hts]. simpl in Ht.
  simpl. split; [done|]. split; [done|].
  apply IH; [done|lia|done].
Qed.

Lemma Process_deliver `{L : FALimits} `{M : Model} `{Q : QSort}
    fuel pIn InSize pOut MaxOutSize UnkId :
  Process fuel pIn InSize pOut MaxOutSize UnkId =
    deliver MaxOutSize pOut (segment fuel pIn InSize UnkId).
Proof.
  unfold Process, segment, LogAssert.
  destruct (0 >=? InSize); [done|].
  destruct (InSize <=? MaxArrSize); [|done].
  destruct (populate _ _ _ _) as [arcs|]; [|done].
  rewrite copy_results_reconstruct.
  by destruct (reconstruct _ _ _ _).
Qed.

(** *** The contents of the buffer *)

Lemma write3_app (l1 : list Z) a b c l3 x y z :
  <[(length l1 + 2)%nat := z]>
    (<[(length l1 + 1)%nat := y]>
       (<[length l1 := x]> (l1 ++ a :: b :: c :: l3))) =
  l1 ++ x :: y :: z :: l3.
Proof. induction l1 as [|d l1 IH]; simpl; [done|]. by rewrite IH. Qed.

Lemma store_fitting_overflow MaxOutSize ts :
  ∀ ActualOutSize pOut,
    MaxOutSize < Z.of_nat ActualOutSize + 3 →
    store_fitting MaxOutSize ts ActualOutSize pOut = pOut.
Proof.
  induction ts as [|[[id s] e] ts IH]; intros size pOut Hover; simpl; [done|].
  destruct (Z.leb_spec (Z.of_nat size + 3) MaxOutSize); [lia|].
  apply IH. lia.
Qed.

Lemma store_fitting_app MaxOutSize ts :
  ∀ k l1 mid l3,
    (k ≤ length ts)%nat →
    Z.of_nat (length l1 + 3 * k) ≤ MaxOutSize →
    k = length ts ∨ MaxOutSize < Z.of_nat (length l1 + 3 * k) + 3 →
    length mid = (3 * k)%nat →
    store_fitting MaxOutSize ts (length l1) (l1 ++ mid ++ l3) =
      l1 ++ take (3 * k) (flatten_triples ts) ++ l3.
Proof.
  induction ts as [|[[id s] e] ts IH]; intros k l1 mid l3 Hk Hfit Hlast Hmid.
  { simpl in *. assert (k = 0)%nat as -> by lia. by destruct mid. }
  destruct k as [|k].
  - destruct mid; [|done]. simpl in Hlast.
    rewrite store_fitting_overflow; [done|]. destruct Hlast; [done|lia].
  - destruct mid as [|a [|b [|c mid]]]; simpl in Hmid; try lia.
    cbn [store_fitting].
    destruct (Z.leb_spec (Z.of_nat (length l1) + 3) MaxOutSize); [|lia].
    simpl app at 2. rewrite write3_app.
    replace (length l1 + 3)%nat with (length (l1 ++ [id; Z.of_nat s; Z.of_nat e]))
      by (rewrite length_app; simpl; lia).
    replace (l1 ++ id :: Z.of_nat s :: Z.of_nat e :: mid ++ l3)
      with ((l1 ++ [id; Z.of_nat s; Z.of_nat e]) ++ mid ++ l3)
      by (by rewrite <-(assoc_L (++))).
    simpl in Hk.
    rewrite (IH k).
    + rewrite <-(assoc_L (++)).
      replace (3 * S k)%nat with (S (S (S (3 * k)))) by lia. done.
    + lia.
    + rewrite length_app. simpl length. lia.
    + rewrite length_app. cbn [length] in *.
      destruct Hlast as [Hlast|Hlast]; [left|right]; lia.
    + lia.
Qed.

(** With a buffer of the declared capacity, exactly the [k] triples that
    fit are stored, in order, and nothing else is touched. *)
Lemma store_fitting_spec MaxOutSize ts pOut k :
  (k ≤ length ts)%nat →
  3 * Z.of_nat k ≤ MaxOutSize →
  k = length ts ∨ MaxOutSize < 3 * Z.of_nat k + 3 →
  (3 * k ≤ length pOut)%nat →
  store_fitting MaxOutSize ts 0 pOut =
    take (3 * k) (flatten_triples ts) ++ drop (3 * k) pOut.
Proof.
  intros Hk Hfit Hlast Hcap.
  rewrite <-(take_drop (3 * k) pOut) at 1.
  apply (store_fitting_app MaxOutSize ts k []); simpl; try lia.
  rewrite length_take. lia.
Qed.

Lemma length_flatten_triples ts :
  length (flatten_triples ts) = (3 * length ts)%nat.
Proof.
  induction ts as [|[[id s] e] ts IH]; [done|].
  change (flatten_triples ((id, s, e) :: ts))
    with (id :: Z.of_nat s :: Z.of_nat e :: flatten_triples ts).
  cbn [length]. rewrite IH. lia.
Qed.

(** ** Early exits *)

(** C9.  A call with [InSize = 0] returns 0, and the output buffer comes
    back exactly as it was passed in: nothing is written.  This holds for
    every model, every sort, every limit and every iteration budget. *)
Theorem Process_empty_input `{L : FALimits} `{M : Model} `{Q : QSort}
    fuel pIn pOut MaxOutSize UnkId :
  Process fuel pIn 0 pOut MaxOutSize UnkId = Returned 0 pOut.
Proof. done. Qed.

(** C8.  A call whose [InSize] exceeds [MaxArrSize] is aborted by the
    [LogAssert] at its entry, whatever the model, the input and the
    iteration budget, and the output buffer at the moment of the failure is
    the one the caller passed in: nothing has been written to it. *)
Theorem Process_oversized_input `{L : FALimits} `{M : Model} `{Q : QSort}
    fuel pIn InSize pOut MaxOutSize UnkId :
  0 ≤ MaxArrSize →
  MaxArrSize < InSize →
  Process fuel pIn InSize pOut MaxOutSize UnkId = LogAssertFailed pOut.
Proof.
  intros Hlimit Hsize. unfold Process, LogAssert.
  destruct (Z.geb_spec 0 InSize); [lia|].
  by destruct (Z.leb_spec InSize MaxArrSize); [lia|].
Qed.

Lemma Process_oversized_input_witness :
  @Process small_limits scenario_model stable_qsort
    0 (codes "abc") 1001 [7; 7; 7] 3 100 = LogAssertFailed [7; 7; 7].
Proof.
  apply (@Process_oversized_input small_limits scenario_model stable_qsort);
    simpl; lia.
Defined.

(** ** Sizing *)

(** C7.  Whatever the call does, it is the logical segmentation [segment]
    delivered through the caller's buffer: when [segment] yields the triples
    [ts], the call returns [3 * length ts] and leaves the buffer as
    [store_fitting] makes it.  With a buffer of the declared capacity,
    [store_fitting] stores the first [k] triples, where [k] is the number
    of whole triples that fit below [MaxOutSize], in the layout
    [id, start, end, ...], and leaves the rest of the buffer untouched; so
    when the returned size is at most [MaxOutSize] the first
    [3 * length ts] cells are exactly the logical sequence. *)
Theorem Process_sizing `{L : FALimits} `{M : Model} `{Q : QSort}
    fuel pIn InSize pOut MaxOutSize UnkId :
  Process fuel pIn InSize pOut MaxOutSize UnkId =
    deliver MaxOutSize pOut (segment fuel pIn InSize UnkId) ∧
  (∀ ts k,
     (k ≤ length ts)%nat →
     3 * Z.of_nat k ≤ MaxOutSize →
     k = length ts ∨ MaxOutSize < 3 * Z.of_nat k + 3 →
     MaxOutSize ≤ Z.of_nat (length pOut) →
     store_fitting MaxOutSize ts 0 pOut =
       take (3 * k) (flatten_triples ts) ++ drop (3 * k) pOut) ∧
  (∀ ts,
     3 * Z.of_nat (length ts) ≤ MaxOutSize →
     MaxOutSize ≤ Z.of_nat (length pOut) →
     take (3 * length ts) (store_fitting MaxOutSize ts 0 pOut) =
       flatten_triples ts).
Proof.
  split; [apply Process_deliver|]. split.
  - intros ts k Hk Hfit Hlast Hcap. apply store_fitting_spec; lia.
  - intros ts Hfit Hcap.
    rewrite (store_fitting_spec _ ts pOut (length ts)) by lia.
    rewrite (take_ge (flatten_triples ts))
      by (rewrite length_flatten_triples; lia).
    by rewrite take_app_length' by (by rewrite length_flatten_triples).
Qed.

Lemma Process_sizing_witness :
  let ts : list Triple := [(3, 0%nat, 0%nat); (1, 1%nat, 1%nat)] in
  let pOut := [7; 7; 7; 7; 7; 7; 7] in
  @Process small_limits scenario_model stable_qsort
    5 (codes "ba") 2 pOut 5 100 = Returned 6 [3; 0; 0; 7; 7; 7; 7] ∧
  store_fitting 5 ts 0 pOut =
    take 3 (flatten_triples ts) ++ drop 3 pOut ∧
  take 6 (store_fitting 7 ts 0 pOut) = flatten_triples ts.
Proof.
  intros ts pOut.
  pose proof (@Process_sizing small_limits scenario_model stable_qsort
    5 (codes "ba") 2 pOut 5 100) as (Hret & Hstore & _).
  pose proof (@Process_sizing small_limits scenario_model stable_qsort
    5 (codes "ba") 2 pOut 7 100) as (_ & _ & Htake).
  split; [by rewrite Hret|].
  split; [apply (Hstore ts 1%nat)|apply (Htake ts)]; simpl; lia.
Defined.

(** ** Segmentation over a known vocabulary *)

Lemma segment_vocab `{L : FALimits} `{M : Model} `{Q : QSort}
    V fuel pIn InSize UnkId :
  realizes V →
  0 < InSize ≤ MaxArrSize →
  ∀ n arcs,
    n = Z.to_nat InSize →
    arcs = vocab_populate V (take n pIn) 0 UnkId [] →
    keys_distinct arcs →
    segment fuel pIn InSize UnkId =
      match reconstruct fuel n
              (cover_arcs n (insertion_sort arcs) (cover_init n UnkId)) 0 with
      | None => Unfinished
      | Some ts => Triples ts
      end.
Proof.
  intros HV [Hpos Hmax] n arcs -> -> Hkeys. unfold segment.
  destruct (Z.geb_spec 0 InSize); [lia|].
  destruct (Z.leb_spec InSize MaxArrSize); [|lia].
  by rewrite (populate_vocab V), qsort_unique.
Qed.

Lemma vocab_scan_nil pre rest start i : vocab_scan [] pre rest start i = [].
Proof.
  revert pre i. induction rest as [|Iw rest IH]; intros pre i; simpl; [done|].
  apply IH.
Qed.

Lemma fallback_nil start UnkId :
  fallback [] start UnkId = [mkArc start start UnkId].
Proof. done. Qed.

Lemma fallback_singleton s e start UnkId :
  fallback [mkArc s e UnkId] start UnkId = [mkArc s start UnkId].
Proof.
  unfold fallback. cbn [length lookup list_lookup Nat.sub _Id _Start].
  rewrite bool_decide_eq_true_2 by lia. by rewrite Z.eqb_refl.
Qed.

(** With nothing matching, every further start only stretches the one
    pending unknown arc. *)
Lemma vocab_populate_nil_extend suffix :
  ∀ start UnkId s e,
    vocab_populate [] suffix start UnkId [mkArc s e UnkId] =
      [mkArc s (match suffix with
                | [] => e
                | _ => start + length suffix - 1
                end)%nat UnkId].
Proof.
  induction suffix as [|Iw suffix IH]; intros start UnkId s e; [done|].
  cbn [vocab_populate]. rewrite vocab_scan_nil.
  rewrite bool_decide_eq_true_2 by done.
  rewrite fallback_singleton, IH. do 2 f_equal. destruct suffix; simpl; lia.
Qed.

Lemma vocab_populate_nil Iw suffix UnkId :
  vocab_populate [] (Iw :: suffix) 0 UnkId [] = [mkArc 0 (length suffix) UnkId].
Proof.
  cbn [vocab_populate]. rewrite vocab_scan_nil.
  rewrite bool_decide_eq_true_2 by done.
  rewrite fallback_nil, vocab_populate_nil_extend.
  do 2 f_equal. destruct suffix; simpl; lia.
Qed.

(** C6.  For a model that recognises no segment at all ([realizes []]:
    no nonempty word read from the initial state ends in a final state),
    every input of length [InSize] between 1 and [MaxArrSize], every
    [UnkId], and every iteration budget of at least one turn, the
    segmentation is the single triple [(UnkId, 0, InSize - 1)], and the
    call returns 3 having stored that triple if and only if three cells
    fit. *)
Theorem Process_nothing_matches `{L : FALimits} `{M : Model} `{Q : QSort}
    fuel pIn InSize pOut MaxOutSize UnkId :
  realizes [] →
  1 ≤ InSize ≤ MaxArrSize →
  InSize ≤ Z.of_nat (length pIn) →
  (1 ≤ fuel)%nat →
  segment fuel pIn InSize UnkId =
    Triples [(UnkId, 0%nat, Z.to_nat (InSize - 1))] ∧
  Process fuel pIn InSize pOut MaxOutSize UnkId =
    Returned 3
      (if 3 <=? MaxOutSize
       then <[2%nat := InSize - 1]> (<[1%nat := 0]> (<[0%nat := UnkId]> pOut))
       else pOut).
Proof.
  intros HV Hsize Hlen Hfuel.
  assert (segment fuel pIn InSize UnkId =
            Triples [(UnkId, 0%nat, Z.to_nat (InSize - 1))]) as Hseg.
  { destruct (Z.to_nat InSize) as [|m] eqn:Hn; [lia|].
    destruct (take (S m) pIn) as [|Iw suffix] eqn:Htake.
    { apply (f_equal length) in Htake. rewrite length_take in Htake.
      cbn [length] in Htake. lia. }
    assert (length suffix = m) as Hm.
    { apply (f_equal length) in Htake. rewrite length_take in Htake.
      cbn [length] in Htake. lia. }
    assert (0 < InSize ≤ MaxArrSize) as Hsize' by lia.
    rewrite (segment_vocab [] fuel pIn InSize UnkId HV Hsize'
               (S m) [mkArc 0 m UnkId]);
      [|done|by rewrite Htake, vocab_populate_nil, Hm|].
    2:{ apply NoDup_singleton. }
    destruct fuel as [|fuel]; [lia|].
    replace (Z.to_nat (InSize - 1)) with m by lia.
    unfold cover_arcs, cover_step, available, cover_init. cbn.
    replace (m + 1 =? S m)%nat with true by (symmetry; apply Nat.eqb_eq; lia).
    cbn. replace (m + 1)%nat with (S m) by lia.
    by rewrite reconstruct_done. }
  split; [done|].
  rewrite Process_deliver, Hseg. unfold deliver. cbn.
  rewrite Z2Nat.id by lia. done.
Qed.

Lemma Process_nothing_matches_witness :
  @segment small_limits empty_model stable_qsort 1 (codes "xyz") 3 100 =
    Triples [(100, 0%nat, 2%nat)] ∧
  @Process small_limits empty_model stable_qsort
    1 (codes "xyz") 3 [7; 7; 7; 7] 4 100 = Returned 3 [100; 0; 2; 7].
Proof.
  apply (@Process_nothing_matches small_limits empty_model stable_qsort
           1 (codes "xyz") 3 [7; 7; 7; 7] 4 100).
  - apply empty_model_realizes.
  - simpl. lia.
  - simpl. lia.
  - lia.
Defined.

(** ** The worked scenario *)

Ltac keys_distinct_by_computation :=
  unfold keys_distinct; apply (bool_decide_unpack _); vm_compute; exact I.

(** C3.  For every model that recognises the vocabulary
    ["a" : 1, "ab" : 2, "b" : 3, "abc" : 4] over 8-bit code units, every
    conforming sort, a limit of at least 3 and an iteration budget of at
    least one turn, the input "abc" with [UnkId = 100] is segmented into
    the single triple [(4, 0, 2)]; the call returns 3 and stores that
    triple when three cells fit. *)
Theorem Process_scenario_abc `{L : FALimits} `{M : Model} `{Q : QSort}
    fuel pOut MaxOutSize :
  realizes scenario_vocab →
  3 ≤ MaxArrSize →
  (1 ≤ fuel)%nat →
  segment fuel (codes "abc") 3 100 = Triples [(4, 0%nat, 2%nat)] ∧
  Process fuel (codes "abc") 3 pOut MaxOutSize 100 =
    Returned 3
      (if 3 <=? MaxOutSize
       then <[2%nat := 2]> (<[1%nat := 0]> (<[0%nat := 4]> pOut))
       else pOut).
Proof.
  intros HV Hmax Hfuel.
  assert (segment fuel (codes "abc") 3 100 = Triples [(4, 0%nat, 2%nat)])
    as Hseg.
  { assert (0 < 3 ≤ MaxArrSize) as Hsize by lia.
    erewrite (segment_vocab scenario_vocab fuel _ 3 100 HV Hsize);
      [|reflexivity|vm_compute; reflexivity|keys_distinct_by_computation].
    set (c := cover_arcs _ _ _). vm_compute in c. subst c.
    destruct fuel as [|fuel]; [lia|].
    rewrite reconstruct_step by (simpl; lia). cbn.
    by rewrite reconstruct_done. }
  split; [done|]. by rewrite Process_deliver, Hseg.
Qed.

Lemma Process_scenario_abc_witness :
  @segment small_limits scenario_model stable_qsort 1 (codes "abc") 3 100 =
    Triples [(4, 0%nat, 2%nat)] ∧
  @Process small_limits scenario_model stable_qsort
    1 (codes "abc") 3 [7; 7; 7; 7] 4 100 = Returned 3 [4; 0; 2; 7].
Proof.
  apply (@Process_scenario_abc small_limits scenario_model stable_qsort
           1 [7; 7; 7; 7] 4).
  - apply scenario_model_realizes.
  - simpl. lia.
  - lia.
Defined.

(** The other worked scenarios of the specification, on the scenario
    transducer. *)
Example scenario_ab :
  @Process small_limits scenario_model stable_qsort
    2 (codes "ab") 2 [7; 7; 7; 7; 7; 7] 6 100 = Returned 3 [2; 0; 1; 7; 7; 7].
Proof. by vm_compute. Qed.

Example scenario_ba :
  @Process small_limits scenario_model stable_qsort
    2 (codes "ba") 2 [7; 7; 7; 7; 7; 7] 6 100 = Returned 6 [3; 0; 0; 1; 1; 1].
Proof. by vm_compute. Qed.

Example scenario_xab :
  @Process small_limits scenario_model stable_qsort
    2 (codes "xab") 3 [7; 7; 7; 7; 7; 7] 6 100 =
    Returned 6 [100; 0; 0; 2; 1; 2].
Proof. by vm_compute. Qed.

Example scenario_xxab :
  @Process small_limits scenario_model stable_qsort
    2 (codes "xxab") 4 [7; 7; 7; 7; 7; 7] 6 100 =
    Returned 6 [100; 0; 1; 2; 2; 3].
Proof. by vm_compute. Qed.

(** ** An input on which the copy loop never ends *)

Lemma abcx_cover_built `{M : Model} `{Q : QSort} :
  realizes scenario_vocab →
  ∃ arcs,
    populate (codes "abcx") 0 100 [] = Some arcs ∧
    cover_arcs 4 (qsort arcs) (cover_init 4 100) = abcx_cover.
Proof.
  intros HV. eexists. split; [apply (populate_vocab scenario_vocab), HV|].
  rewrite qsort_unique by keys_distinct_by_computation.
  by vm_compute.
Qed.

Lemma abcx_walk_stuck k : (2 ≤ k)%nat → walk_position abcx_cover k = 1%nat.
Proof.
  induction 1 as [|k Hk IH]; [done|]. simpl. by rewrite IH.
Qed.

Lemma abcx_reconstruct_stuck fuel : reconstruct fuel 4 abcx_cover 1 = None.
Proof.
  induction fuel as [|fuel IH]; [done|].
  rewrite reconstruct_step by lia. cbn. by rewrite IH.
Qed.

Lemma abcx_reconstruct fuel : reconstruct fuel 4 abcx_cover 0 = None.
Proof.
  destruct fuel as [|[|fuel]]; [done..|].
  rewrite !reconstruct_step by (cbn; lia). cbn.
  by rewrite abcx_reconstruct_stuck.
Qed.

(** C1 (the defect).  For every model that recognises the scenario
    vocabulary ["a" : 1, "ab" : 2, "b" : 3, "abc" : 4], every conforming
    sort and every limit of at least 4, the call on "abcx" with
    [UnkId = 100] does not return, however many turns the copy loop is
    given: no list of triples, let alone a partition of [0, 3], is ever
    produced. *)
Theorem Process_abcx_never_returns `{L : FALimits} `{M : Model} `{Q : QSort}
    fuel pOut MaxOutSize :
  realizes scenario_vocab →
  4 ≤ MaxArrSize →
  Process fuel (codes "abcx") 4 pOut MaxOutSize 100 = OutOfFuel.
Proof.
  intros HV Hmax. rewrite Process_deliver.
  assert (0 < 4 ≤ MaxArrSize) as Hsize by lia.
  erewrite (segment_vocab scenario_vocab fuel _ 4 100 HV Hsize);
    [|reflexivity|vm_compute; reflexivity|keys_distinct_by_computation].
  set (c := cover_arcs _ _ _). vm_compute in c. subst c.
  fold abcx_cover. by rewrite abcx_reconstruct.
Qed.

Lemma Process_abcx_never_returns_witness :
  @Process small_limits scenario_model stable_qsort
    1000 (codes "abcx") 4 [7; 7; 7; 7; 7; 7] 6 100 = OutOfFuel.
Proof.
  apply (@Process_abcx_never_returns small_limits scenario_model stable_qsort).
  - apply scenario_model_realizes.
  - simpl. lia.
Defined.

(** C2 (the defect).  On the tables built for "abcx" the copy loop goes
    from position 0 to position 3, which is not a chosen start: there
    [pTos] is 0 and [pIds] is [UnkId].  Instead of treating it as an
    unknown of length 1 and moving on to 4, the loop steps back to
    position 1 and stays there for ever, so it never reaches [InSize = 4]
    and [copy_results] has no result for any iteration budget. *)
Theorem copy_results_abcx_steps_back `{M : Model} `{Q : QSort} :
  realizes scenario_vocab →
  ∃ arcs,
    populate (codes "abcx") 0 100 [] = Some arcs ∧
    let c := cover_arcs 4 (qsort arcs) (cover_init 4 100) in
    walk_position c 1 = 3%nat ∧
    pTos c !!! 3%nat = 0%nat ∧
    pIds c !!! 3%nat = 100 ∧
    walk_position c 2 = 1%nat ∧
    (∀ k, (2 ≤ k)%nat → walk_position c k = 1%nat) ∧
    (∀ fuel MaxOutSize ActualOutSize pOut,
       copy_results fuel 4 c MaxOutSize 0 ActualOutSize pOut = None).
Proof.
  intros HV. destruct (abcx_cover_built HV) as (arcs & Harcs & Hcover).
  exists arcs. split; [done|]. cbn zeta. rewrite Hcover.
  repeat split; try done.
  - apply abcx_walk_stuck.
  - intros. by rewrite copy_results_reconstruct, abcx_reconstruct.
Qed.

Lemma copy_results_abcx_steps_back_witness :
  ∃ arcs,
    @populate scenario_model (codes "abcx") 0 100 [] = Some arcs ∧
    let c := cover_arcs 4 (@qsort stable_qsort arcs) (cover_init 4 100) in
    walk_position c 1 = 3%nat ∧
    pTos c !!! 3%nat = 0%nat ∧
    pIds c !!! 3%nat = 100 ∧
    walk_position c 2 = 1%nat ∧
    (∀ k, (2 ≤ k)%nat → walk_position c k = 1%nat) ∧
    (∀ fuel MaxOutSize ActualOutSize pOut,
       copy_results fuel 4 c MaxOutSize 0 ActualOutSize pOut = None).
Proof.
  apply (@copy_results_abcx_steps_back scenario_model stable_qsort).
  apply scenario_model_realizes.
Defined.

(** ** Sorting the arc buffer *)

Lemma StronglySorted_lookup {A} (R : relation A) l i j a b :
  StronglySorted R l → (i < j)%nat → l !! i = Some a → l !! j = Some b → R a b.
Proof.
  intros Hl. revert i j. induction Hl as [|x l Hl IH Hx]; intros i j Hij Ha Hb.
  { done. }
  destruct j as [|j]; [lia|]. destruct i as [|i]; simpl in *.
  - simplify_eq. rewrite Forall_forall in Hx. apply Hx.
    by apply list_elem_of_lookup_2 in Hb.
  - apply (IH i j); [lia|done..].
Qed.

Lemma filter_insert_arc key a l :
  filter (λ x, arc_key x = key) (insert_arc a l) =
    if decide (arc_key a = key)
    then a :: filter (λ x, arc_key x = key) l
    else filter (λ x, arc_key x = key) l.
Proof.
  induction l as [|b l IH]; simpl.
  { rewrite filter_cons, filter_nil. by case_decide. }
  destruct (decide (arc_le a b)) as [Hab|Hab].
  - by rewrite (filter_cons _ a).
  - rewrite !(filter_cons _ b), IH.
    destruct (decide (arc_key b = key)) as [Hb|Hb]; [|done].
    destruct (decide (arc_key a = key)) as [Ha|Ha]; [|done].
    exfalso. apply Hab. apply arc_le_spec.
    unfold arc_key in *. simplify_eq. lia.
Qed.

(** Straight insertion is a stable sort. *)
Lemma insertion_sort_stable l : keeps_insertion_order l (insertion_sort l).
Proof.
  intros key. induction l as [|a l IH]; simpl; [done|].
  by rewrite filter_insert_arc, filter_cons, IH.
Qed.

(** C4 (as the source has it).  After [std::qsort] the arc buffer is a
    rearrangement of the enumerated arcs in which an arc that comes before
    another has a smaller id, or the same id and a start that is not
    larger.  Nothing fixes the order of arcs that agree on both id and
    start; when no two arcs of the buffer agree on both, the sorted buffer
    is the same for every conforming sort, namely the one a stable sort
    produces. *)
Theorem qsort_orders_by_id_then_start `{Q : QSort} (arcs : list _TArc) :
  qsort arcs ≡ₚ arcs ∧
  (∀ i j a b,
     (i < j)%nat → qsort arcs !! i = Some a → qsort arcs !! j = Some b →
     _Id a < _Id b ∨ (_Id a = _Id b ∧ (_Start a ≤ _Start b)%nat)) ∧
  (keys_distinct arcs →
     qsort arcs = insertion_sort arcs ∧
     keeps_insertion_order arcs (qsort arcs)).
Proof.
  split; [apply qsort_perm|]. split.
  - intros i j a b Hij Ha Hb. apply arc_le_spec.
    apply (StronglySorted_lookup arc_le (qsort arcs) i j); [|done..].
    apply Sorted_StronglySorted; [apply _|apply qsort_sorted].
  - intros Hkeys. rewrite qsort_unique by done.
    split; [done|apply insertion_sort_stable].
Qed.

Lemma qsort_orders_by_id_then_start_witness :
  let arcs := [mkArc 1 1 3; mkArc 0 1 2; mkArc 0 0 1] in
  @qsort reversing_qsort arcs = [mkArc 0 0 1; mkArc 0 1 2; mkArc 1 1 3] ∧
  keeps_insertion_order arcs (@qsort reversing_qsort arcs).
Proof.
  intros arcs.
  destruct (@qsort_orders_by_id_then_start reversing_qsort arcs)
    as (_ & _ & Hdistinct).
  destruct Hdistinct as [Heq Hstable].
  { unfold keys_distinct. apply (bool_decide_unpack _). vm_compute. exact I. }
  split; [by rewrite Heq|done].
Defined.

(** C4, as stated, fails: the model that gives "a" and "ab" the same id
    makes the enumeration of "ab" produce two arcs with id 7 and start 0,
    and a conforming sort may hand them back in the opposite order. *)
Lemma qsort_may_reorder_ties :
  ∃ arcs,
    @populate duplicate_id_model (codes "ab") 0 100 [] = Some arcs ∧
    arcs = [mkArc 0 0 7; mkArc 0 1 7; mkArc 1 1 100] ∧
    @qsort reversing_qsort arcs = [mkArc 0 1 7; mkArc 0 0 7; mkArc 1 1 100] ∧
    ¬ keeps_insertion_order arcs (@qsort reversing_qsort arcs).
Proof.
  eexists. split; [by vm_compute|]. split; [done|]. split; [by vm_compute|].
  intros Hstable. specialize (Hstable (7, 0%nat)). by vm_compute in Hstable.
Qed.

(** ** The unknown-arc fallback *)

Lemma fallback_last arcs start UnkId :
  fallback arcs start UnkId =
    match last arcs with
    | Some a =>
        if decide (_Id a = UnkId)
        then <[pred (length arcs) := mkArc (_Start a) start (_Id a)]> arcs
        else arcs ++ [mkArc start start UnkId]
    | None => arcs ++ [mkArc start start UnkId]
    end.
Proof.
  unfold fallback. rewrite last_lookup.
  replace (length arcs - 1)%nat with (pred (length arcs)) by lia.
  destruct (arcs !! pred (length arcs)) as [a|] eqn:Ha; [|done].
  apply lookup_lt_Some in Ha.
  rewrite bool_decide_eq_true_2 by lia. simpl.
  destruct (Z.eqb_spec UnkId (_Id a)); by case_decide.
Qed.

(** C5 (as the source has it).  When nothing matched from [start]: if the
    arc buffer ends with an arc whose id equals [UnkId], that arc's end is
    moved to [start]; otherwise (the buffer is empty, or ends with an arc
    of another id) the arc [{start, start, UnkId}] is appended.  The test
    looks at the id only.  So a matched arc pushed for an earlier start,
    which is then the last arc of the buffer, suppresses coalescing exactly
    when its id differs from [UnkId]; a matched arc whose id happens to be
    [UnkId] is itself stretched to [start]. *)
Theorem fallback_looks_at_last_id `{M : Model} arcs start UnkId :
  (∀ a, last arcs = Some a → _Id a = UnkId →
     fallback arcs start UnkId =
       <[pred (length arcs) := mkArc (_Start a) start UnkId]> arcs) ∧
  (last arcs = None ∨ (∃ a, last arcs = Some a ∧ _Id a ≠ UnkId) →
     fallback arcs start UnkId = arcs ++ [mkArc start start UnkId]) ∧
  (∀ rest start' State SumOw arcs0,
     scan rest start' start' State SumOw arcs0 true = Some (arcs, false) →
     ∃ j id,
       last arcs = Some (mkArc start' j id) ∧
       fallback arcs start UnkId =
         if decide (id = UnkId)
         then <[pred (length arcs) := mkArc start' start UnkId]> arcs
         else arcs ++ [mkArc start start UnkId]).
Proof.
  split; [|split].
  - intros a Ha Hid. rewrite fallback_last, Ha, Hid. by case_decide.
  - intros [Hnone|(a & Ha & Hid)]; rewrite fallback_last.
    + by rewrite Hnone.
    + rewrite Ha. by case_decide.
  - intros rest start' State SumOw arcs0 Hscan.
    apply scan_outcome in Hscan as [[_ ?]|[_ (j & id & Hlast)]]; [done|].
    exists j, id. split; [done|]. rewrite fallback_last, Hlast. simpl.
    by case_decide; simplify_eq.
Qed.

Lemma fallback_looks_at_last_id_witness :
  fallback [mkArc 0 0 100] 1 100 = [mkArc 0 1 100] ∧
  fallback [mkArc 0 0 1; mkArc 0 1 2] 2 100 =
    [mkArc 0 0 1; mkArc 0 1 2; mkArc 2 2 100] ∧
  ∃ j id,
    last [mkArc 0 0 1; mkArc 0 1 2] = Some (mkArc 0 j id) ∧
    fallback [mkArc 0 0 1; mkArc 0 1 2] 2 100 =
      if decide (id = 100)
      then <[1%nat := mkArc 0 2 100]> [mkArc 0 0 1; mkArc 0 1 2]
      else [mkArc 0 0 1; mkArc 0 1 2] ++ [mkArc 2 2 100].
Proof.
  destruct (@fallback_looks_at_last_id scenario_model [mkArc 0 0 100] 1 100)
    as (Hextend & _ & _).
  destruct (@fallback_looks_at_last_id scenario_model
              [mkArc 0 0 1; mkArc 0 1 2] 2 100) as (_ & Hpush & Hmatched).
  split; [by apply (Hextend (mkArc 0 0 100))|].
  split.
  - apply Hpush. right. exists (mkArc 0 1 2). split; [done|]. simpl. lia.
  - apply (Hmatched (codes "abx") 0%nat 0 0 []). by vm_compute.
Defined.

(** C5, as stated, fails: in a model whose segment "a" carries the id 100,
    the input "ax" with [UnkId = 100] has a matched arc pushed for start
    0, nothing matching from start 1, and yet no arc [{1, 1, 100}] is
    appended: the matched arc is stretched over position 1. *)
Lemma matched_arc_with_unk_id_is_extended :
  @scan unk_valued_model (codes "ax") 0 0 0 0 [] true
    = Some ([mkArc 0 0 100], false) ∧
  @scan unk_valued_model (codes "x") 1 1 0 0 [mkArc 0 0 100] true
    = Some ([mkArc 0 0 100], true) ∧
  fallback [mkArc 0 0 100] 1 100 = [mkArc 0 1 100] ∧
  fallback [mkArc 0 0 100] 1 100 ≠ [mkArc 0 0 100] ++ [mkArc 1 1 100] ∧
  @populate unk_valued_model (codes "ax") 0 100 [] = Some [mkArc 0 1 100].
Proof. repeat split; by vm_compute. Qed.

(** ** Arcs that share a start *)

Lemma cover_step_accept InSize c a :
  available InSize c a = true →
  cover_step InSize c a =
    mkCover (<[_Start a := _End a]> (pTos c))
            (<[_Start a := _Id a]> (pIds c))
            (if bool_decide (0 < _End a - _Start a)%nat
             then memset (pIntermediate c) (_Start a + 1) 1
                         (_End a - _Start a)
             else pIntermediate c).
Proof. unfold cover_step. by intros ->. Qed.

Lemma cover_step_reject InSize c a :
  available InSize c a = false → cover_step InSize c a = c.
Proof. unfold cover_step. by intros ->. Qed.

Lemma cover_step_lengths InSize c a :
  length (pTos (cover_step InSize c a)) = length (pTos c) ∧
  length (pIds (cover_step InSize c a)) = length (pIds c).
Proof.
  unfold cover_step. destruct (available InSize c a); [|done].
  simpl. by rewrite !length_insert.
Qed.

Lemma cover_arcs_lengths InSize arcs c :
  length (pTos (cover_arcs InSize arcs c)) = length (pTos c) ∧
  length (pIds (cover_arcs InSize arcs c)) = length (pIds c).
Proof.
  revert c. induction arcs as [|a arcs IH]; intros c; [done|].
  unfold cover_arcs in *. simpl.
  destruct (IH (cover_step InSize c a)) as [-> ->].
  apply cover_step_lengths.
Qed.

Lemma cover_step_elsewhere InSize c a p :
  p ≠ _Start a →
  pTos (cover_step InSize c a) !! p = pTos c !! p ∧
  pIds (cover_step InSize c a) !! p = pIds c !! p.
Proof.
  intros Hp. unfold cover_step. destruct (available InSize c a); [|done].
  simpl. by rewrite !list_lookup_insert_ne.
Qed.

(** Merging an arc leaves the byte of its own start as it was. *)
Lemma cover_step_own_start InSize c a :
  pIntermediate (cover_step InSize c a) !! _Start a =
    pIntermediate c !! _Start a.
Proof.
  unfold cover_step. destruct (available InSize c a); [|done]. simpl.
  case_bool_decide; [|done].
  unfold memset. apply list_lookup_inserts_lt. lia.
Qed.

Lemma cover_arcs_snoc InSize arcs a c :
  cover_arcs InSize (arcs ++ [a]) c =
    cover_step InSize (cover_arcs InSize arcs c) a.
Proof. apply foldl_snoc. Qed.

Lemma accepted_at_snoc InSize c0 arcs x i :
  accepted_at InSize c0 (arcs ++ [x]) i =
    if decide (i = length arcs)
    then available InSize (cover_arcs InSize arcs c0) x
    else accepted_at InSize c0 arcs i.
Proof.
  unfold accepted_at. case_decide as Hi.
  - subst i. by rewrite list_lookup_middle, take_app_length.
  - destruct (decide (i < length arcs)%nat).
    + by rewrite lookup_app_l, take_app_le by lia.
    + by rewrite !lookup_ge_None_2 by (rewrite ?length_app; simpl; lia).
Qed.

(** The tables at a start hold what the last arc merged there put in. *)
Lemma cover_arcs_last_accepted InSize c0 arcs :
  ∀ i a,
    arcs !! i = Some a →
    accepted_at InSize c0 arcs i = true →
    (∀ j b, (i < j)%nat → arcs !! j = Some b → _Start b = _Start a →
            accepted_at InSize c0 arcs j = false) →
    (_Start a < length (pTos c0))%nat →
    (_Start a < length (pIds c0))%nat →
    pTos (cover_arcs InSize arcs c0) !! _Start a = Some (_End a) ∧
    pIds (cover_arcs InSize arcs c0) !! _Start a = Some (_Id a).
Proof.
  induction arcs as [|x arcs IH] using rev_ind;
    intros i a Ha Hacc Hlater Htos Hids; [done|].
  rewrite cover_arcs_snoc.
  rewrite accepted_at_snoc in Hacc.
  destruct (cover_arcs_lengths InSize arcs c0) as [Hlt Hli].
  destruct (decide (i = length arcs)) as [->|Hi].
  - rewrite list_lookup_middle in Ha by done. simplify_eq.
    rewrite cover_step_accept by done. simpl.
    by rewrite !list_lookup_insert_eq by lia.
  - assert (i < length arcs)%nat as Hlt'.
    { apply lookup_lt_Some in Ha. rewrite length_app in Ha. simpl in Ha. lia. }
    rewrite lookup_app_l in Ha by done.
    assert (pTos (cover_arcs InSize arcs c0) !! _Start a = Some (_End a) ∧
            pIds (cover_arcs InSize arcs c0) !! _Start a = Some (_Id a))
      as HIH.
    { apply (IH i); [done..| |done|done].
      intros j b Hij Hb Hstart.
      specialize (Hlater j b Hij). rewrite accepted_at_snoc in Hlater.
      apply lookup_lt_Some in Hb as Hj.
      rewrite lookup_app_l in Hlater by done.
      destruct (decide (j = length arcs)); [lia|]. by apply Hlater. }
    destruct (decide (_Start x = _Start a)) as [Hsame|Hother].
    + specialize (Hlater (length arcs) x Hlt').
      rewrite list_lookup_middle, accepted_at_snoc in Hlater by done.
      rewrite decide_True in Hlater by done.
      by rewrite cover_step_reject by (by apply Hlater).
    + destruct (cover_step_elsewhere InSize (cover_arcs InSize arcs c0)
                  x (_Start a)) as [-> ->]; done.
Qed.

(** A same-start arc that could be merged and is not shorter can still be
    merged after the first one has been. *)
Lemma available_after_same_start InSize c a b :
  available InSize c a = true →
  available InSize c b = true →
  _Start b = _Start a →
  (_End a ≤ _End b)%nat →
  available InSize (cover_step InSize c a) b = true.
Proof.
  intros Ha Hb Hstart Hend. rewrite cover_step_accept by done.
  unfold available in *. simpl.
  case_bool_decide; [|done].
  unfold memset.
  rewrite Hstart, list_lookup_total_inserts_lt by lia.
  rewrite list_lookup_total_inserts_ge by (rewrite length_replicate; lia).
  by rewrite <-Hstart.
Qed.

(** C10.  In the cover loop, merging an arc never changes the
    [pIntermediate] byte of the arc's own start, so another arc with the
    same start that could be merged and is not shorter can still be merged
    afterwards; a merge overwrites [pTos] and [pIds] at the start.  Hence,
    among the arcs of one start, the one merged last decides both tables
    at that start, and with them the triple the copy loop emits there; in
    the sorted buffer every arc before it has an id that is not larger, so
    it is the merged arc of highest id, not the one of lowest id. *)
Theorem same_start_last_merge_wins InSize c0 arcs :
  (∀ c a, pIntermediate (cover_step InSize c a) !! _Start a =
          pIntermediate c !! _Start a) ∧
  (∀ c a b,
     available InSize c a = true → available InSize c b = true →
     _Start b = _Start a → (_End a ≤ _End b)%nat →
     available InSize (cover_step InSize c a) b = true) ∧
  (∀ c a,
     available InSize c a = true →
     pTos (cover_step InSize c a) = <[_Start a := _End a]> (pTos c) ∧
     pIds (cover_step InSize c a) = <[_Start a := _Id a]> (pIds c)) ∧
  (∀ i a,
     arcs !! i = Some a →
     accepted_at InSize c0 arcs i = true →
     (∀ j b, (i < j)%nat → arcs !! j = Some b → _Start b = _Start a →
             accepted_at InSize c0 arcs j = false) →
     (_Start a < InSize)%nat →
     length (pTos c0) = InSize → length (pIds c0) = InSize →
     pTos (cover_arcs InSize arcs c0) !!! _Start a = _End a ∧
     pIds (cover_arcs InSize arcs c0) !!! _Start a = _Id a ∧
     ∀ fuel,
       reconstruct (S fuel) InSize (cover_arcs InSize arcs c0) (_Start a) =
         cons (_Id a, _Start a, _End a)
           <$> reconstruct fuel InSize (cover_arcs InSize arcs c0)
                 (_End a + 1)%nat) ∧
  (Sorted arc_le arcs →
   ∀ i j a b,
     (i < j)%nat → arcs !! i = Some a → arcs !! j = Some b → _Id a ≤ _Id b).
Proof.
  split; [intros; apply cover_step_own_start|].
  split; [intros; by apply available_after_same_start|].
  split; [intros c a Ha; by rewrite cover_step_accept|].
  split.
  - intros i a Ha Hacc Hlater Hstart Htos Hids.
    assert (_Start a < length (pTos c0))%nat as Htos' by lia.
    assert (_Start a < length (pIds c0))%nat as Hids' by lia.
    destruct (cover_arcs_last_accepted InSize c0 arcs i a
                Ha Hacc Hlater Htos' Hids') as [Ht Hi].
    apply list_lookup_total_correct in Ht, Hi.
    split; [done|]. split; [done|].
    intros fuel. by rewrite reconstruct_step, Ht, Hi.
  - intros Hsorted i j a b Hij Ha Hb.
    apply Sorted_StronglySorted in Hsorted; [|apply _].
    pose proof (StronglySorted_lookup arc_le arcs i j a b Hsorted Hij Ha Hb)
      as Hle.
    apply arc_le_spec in Hle. lia.
Qed.

Lemma same_start_last_merge_wins_witness :
  let arcs :=
    [mkArc 0 0 1; mkArc 0 1 2; mkArc 1 1 3; mkArc 0 2 4; mkArc 2 2 100] in
  let c0 := cover_init 3 100 in
  accepted_at 3 c0 arcs 0 = true ∧
  accepted_at 3 c0 arcs 1 = true ∧
  accepted_at 3 c0 arcs 3 = true ∧
  pTos (cover_arcs 3 arcs c0) !!! 0%nat = 2%nat ∧
  pIds (cover_arcs 3 arcs c0) !!! 0%nat = 4.
Proof.
  intros arcs c0.
  destruct (same_start_last_merge_wins 3 c0 arcs) as (_ & _ & _ & Hlast & _).
  destruct (Hlast 3%nat (mkArc 0 2 4)) as (Htos & Hids & _).
  - done.
  - by vm_compute.
  - intros j b Hj Hb Hstart.
    destruct j as [|[|[|[|[|j]]]]]; try lia; simpl in Hb; by simplify_eq.
  - simpl. lia.
  - done.
  - done.
  - split; [by vm_compute|]. split; [by vm_compute|].
    split; [by vm_compute|]. split; [exact Htos|exact Hids].
Defined.

(** * Further properties of [Process] *)

(** ** The caller's buffer *)

Lemma store_fitting_length MaxOutSize ts :
  ∀ ActualOutSize pOut,
    length (store_fitting MaxOutSize ts ActualOutSize pOut) = length pOut.
Proof.
  induction ts as [|[[id s] e] ts IH]; intros size pOut; simpl; [done|].
  rewrite IH. destruct (_ <=? _); [|done]. by rewrite !length_insert.
Qed.

Lemma store_fitting_outside MaxOutSize ts :
  ∀ ActualOutSize pOut j,
    (MaxOutSize ≤ Z.of_nat j ∨ (j < ActualOutSize)%nat) →
    store_fitting MaxOutSize ts ActualOutSize pOut !! j = pOut !! j.
Proof.
  induction ts as [|[[id s] e] ts IH]; intros size pOut j Hj; simpl; [done|].
  rewrite IH by lia.
  destruct (Z.leb_spec (Z.of_nat size + 3) MaxOutSize); [|done].
  by rewrite !list_lookup_insert_ne by lia.
Qed.

Lemma store_fitting_after MaxOutSize ts :
  ∀ ActualOutSize pOut j,
    (ActualOutSize + 3 * length ts ≤ j)%nat →
    store_fitting MaxOutSize ts ActualOutSize pOut !! j = pOut !! j.
Proof.
  induction ts as [|[[id s] e] ts IH]; intros size pOut j Hj; [done|].
  cbn [store_fitting length] in *.
  rewrite IH by lia.
  destruct (_ <=? _); [|done].
  by rewrite !list_lookup_insert_ne by lia.
Qed.

Lemma Process_returned `{L : FALimits} `{M : Model} `{Q : QSort}
    fuel pIn InSize pOut MaxOutSize UnkId ret pOut' :
  Process fuel pIn InSize pOut MaxOutSize UnkId = Returned ret pOut' ↔
  ∃ ts, segment fuel pIn InSize UnkId = Triples ts ∧
        ret = 3 * Z.of_nat (length ts) ∧
        pOut' = store_fitting MaxOutSize ts 0 pOut.
Proof.
  rewrite Process_deliver. unfold deliver. split.
  - destruct (segment _ _ _ _) as [ts| |]; [|done..].
    intros [= <- <-]. by exists ts.
  - by intros (ts & -> & -> & ->).
Qed.

(** X1.  A call that returns never resizes the caller's buffer and never
    touches a cell at or beyond [MaxOutSize], nor a cell at or beyond the
    size it returns: whatever the capacity announced, even a negative one,
    writes stay inside the announced capacity. *)
Theorem Process_writes_in_bounds `{L : FALimits} `{M : Model} `{Q : QSort}
    fuel pIn InSize pOut MaxOutSize UnkId ret pOut' :
  Process fuel pIn InSize pOut MaxOutSize UnkId = Returned ret pOut' →
  length pOut' = length pOut ∧
  ∀ j, MaxOutSize ≤ Z.of_nat j ∨ ret ≤ Z.of_nat j → pOut' !! j = pOut !! j.
Proof.
  intros (ts & _ & -> & ->)%Process_returned. split.
  - apply store_fitting_length.
  - intros j [Hj|Hj].
    + apply store_fitting_outside. by left.
    + apply store_fitting_after. lia.
Qed.

Lemma Process_writes_in_bounds_witness :
  length [3; 0; 0; 7; 7; 7; 7] = length [7; 7; 7; 7; 7; 7; 7] ∧
  [3; 0; 0; 7; 7; 7; 7] !! 4%nat = [7; 7; 7; 7; 7; 7; 7] !! 4%nat.
Proof.
  destruct (@Process_writes_in_bounds small_limits scenario_model
              stable_qsort 5 (codes "ba") 2 [7; 7; 7; 7; 7; 7; 7] 4 100 6
              [3; 0; 0; 7; 7; 7; 7]) as [Hlen Hcells].
  - by vm_compute.
  - split; [exact Hlen|]. apply Hcells. left. lia.
Defined.

(** X2.  The size a call returns depends on the input only, not on the
    buffer it was given: a caller who was told [ret] and calls again with a
    buffer of at least [ret] cells and [MaxOutSize = ret] is told [ret]
    again and finds the whole sequence of triples, in the layout
    [id, start, end, ...], in the first [ret] cells, the rest of the buffer
    being untouched. *)
Theorem Process_retry `{L : FALimits} `{M : Model} `{Q : QSort}
    fuel pIn InSize pOut1 MaxOutSize1 UnkId ret pOut1' pOut2 :
  Process fuel pIn InSize pOut1 MaxOutSize1 UnkId = Returned ret pOut1' →
  ret ≤ Z.of_nat (length pOut2) →
  ∃ ts,
    segment fuel pIn InSize UnkId = Triples ts ∧
    ret = 3 * Z.of_nat (length ts) ∧
    Process fuel pIn InSize pOut2 ret UnkId =
      Returned ret (flatten_triples ts ++ drop (Z.to_nat ret) pOut2).
Proof.
  intros (ts & Hseg & -> & ->)%Process_returned Hcap.
  exists ts. split; [done|]. split; [done|].
  apply Process_returned. exists ts. split; [done|]. split; [done|].
  rewrite (store_fitting_spec _ ts pOut2 (length ts)) by lia.
  rewrite take_ge by (rewrite length_flatten_triples; lia).
  do 2 f_equal. lia.
Qed.

Lemma Process_retry_witness :
  ∃ ts,
    @segment small_limits scenario_model stable_qsort 5 (codes "ba") 2 100
      = Triples ts ∧
    6 = 3 * Z.of_nat (length ts) ∧
    @Process small_limits scenario_model stable_qsort
      5 (codes "ba") 2 [8; 8; 8; 8; 8; 8; 8] 6 100 =
      Returned 6 (flatten_triples ts ++ drop (Z.to_nat 6) [8; 8; 8; 8; 8; 8; 8]).
Proof.
  apply (@Process_retry small_limits scenario_model stable_qsort
           5 (codes "ba") 2 [7; 7] 2 100 6 [7; 7]).
  - by vm_compute.
  - simpl. lia.
Defined.

(** ** What the enumeration finds *)

Section EnumerationByVerdict.
Context `{M : Model}.

Lemma verdict_dead w : run GetInitial 0 w = None → verdict w = NoMatch.
Proof. unfold verdict. by intros ->. Qed.

Lemma model_scan_dead pre rest start i :
  run GetInitial 0 pre = None → model_scan pre rest start i = Some [].
Proof.
  revert pre i. induction rest as [|Iw rest IH]; intros pre i Hdead; [done|].
  assert (run GetInitial 0 (pre ++ [Iw]) = None) as Hdead'
    by (by rewrite run_app, Hdead).
  cbn [model_scan]. rewrite (verdict_dead _ Hdead'). by apply IH.
Qed.

(** The inner loop computes [model_scan]. *)
Lemma scan_model_scan rest :
  ∀ pre State SumOw start i arcs TokenUnknown,
    run GetInitial 0 pre = Some (State, SumOw) →
    scan rest start i State SumOw arcs TokenUnknown =
      (λ found, (arcs ++ found, TokenUnknown && bool_decide (found = [])))
        <$> model_scan pre rest start i.
Proof.
  induction rest as [|Iw rest IH];
    intros pre State SumOw start i arcs unk Hrun; simpl.
  { by rewrite (right_id_L [] (++)), andb_true_r. }
  assert (Hstep : run GetInitial 0 (pre ++ [Iw]) =
            let '(State', Ow) := GetDestOw State Iw in
            if State' =? -1 then None else Some (State', SumOw + Ow)).
  { rewrite run_app, Hrun. simpl. destruct (GetDestOw State Iw) as [State' Ow].
    by destruct (State' =? -1). }
  unfold verdict at 1.
  destruct (GetDestOw State Iw) as [State' Ow].
  destruct (State' =? -1); simpl in Hstep; rewrite Hstep.
  - rewrite model_scan_dead by done. simpl.
    by rewrite (right_id_L [] (++)), andb_true_r.
  - destruct (IsFinal State').
    + destruct (I2Info_Get (SumOw + Ow)) as [|id ?]; [done|].
      rewrite (IH (pre ++ [Iw]) State' (SumOw + Ow)) by done.
      destruct (model_scan _ _ _ _) as [found|]; [|done]. simpl.
      by rewrite <-(assoc_L (++)), andb_false_r.
    + by rewrite (IH (pre ++ [Iw]) State' (SumOw + Ow)).
Qed.

Lemma model_scan_None pre rest start i :
  model_scan pre rest start i = None ↔
  ∃ k, (k < length rest)%nat ∧ verdict (pre ++ take (S k) rest) = MissingInfo.
Proof.
  revert pre i. induction rest as [|Iw rest IH]; intros pre i.
  { split; [done|]. intros (k & Hk & _). simpl in Hk. lia. }
  cbn [model_scan length]. split.
  - destruct (verdict (pre ++ [Iw])) as [|id|] eqn:Hv.
    + intros (k & Hk & Hk')%IH. exists (S k). split; [lia|].
      by rewrite <-(assoc_L (++)) in Hk'.
    + destruct (model_scan (pre ++ [Iw]) rest start (S i)) eqn:Hrec; [done|].
      intros _. apply IH in Hrec as (k & Hk & Hk').
      exists (S k). split; [lia|]. by rewrite <-(assoc_L (++)) in Hk'.
    + intros _. exists 0%nat. split; [lia|done].
  - intros ([|k] & Hk & Hk').
    + cbn [take firstn] in Hk'; rewrite ?take_0 in Hk'. by rewrite Hk'.
    + assert (model_scan (pre ++ [Iw]) rest start (S i) = None) as Hrec.
      { apply IH. exists k. split; [lia|]. by rewrite <-(assoc_L (++)). }
      rewrite Hrec. by destruct (verdict (pre ++ [Iw])).
Qed.

Lemma model_scan_Some pre rest start i found a :
  model_scan pre rest start i = Some found →
  a ∈ found ↔
  ∃ k id, (k < length rest)%nat ∧ a = mkArc start (i + k) id ∧
          verdict (pre ++ take (S k) rest) = Match id.
Proof.
  revert pre i found. induction rest as [|Iw rest IH]; intros pre i found.
  { intros [= <-]. split; [by intros ?%elem_of_nil|].
    intros (k & id & Hk & _). simpl in Hk. lia. }
  cbn [model_scan length].
  assert (∀ found',
    model_scan (pre ++ [Iw]) rest start (S i) = Some found' →
    a ∈ found' ↔
    ∃ k id, (S k < S (length rest))%nat ∧ a = mkArc start (i + S k) id ∧
            verdict (pre ++ take (S (S k)) (Iw :: rest)) = Match id) as IH'.
  { intros found' Hrec. rewrite (IH _ _ _ Hrec).
    split; intros (k & id & Hk & -> & Hv); exists k, id;
      (split; [lia|]); (split; [f_equal; lia|]);
      by rewrite <-?(assoc_L (++)) in *. }
  destruct (verdict (pre ++ [Iw])) as [|id|] eqn:Hv; [| |done].
  - intros Hrec. rewrite (IH' _ Hrec). split.
    + intros (k & id & Hk & -> & Hk'). by exists (S k), id.
    + intros ([|k] & id & Hk & -> & Hk').
      * cbn [take firstn] in Hk'; rewrite ?take_0 in Hk'. congruence.
      * by exists k, id.
  - destruct (model_scan (pre ++ [Iw]) rest start (S i)) as [found'|] eqn:Hrec;
      [|done].
    intros [= <-]. rewrite elem_of_cons, (IH' _ eq_refl). split.
    + intros [->|(k & id' & Hk & -> & Hk')].
      * exists 0%nat, id. split; [lia|]. split; [f_equal; lia|done].
      * by exists (S k), id'.
    + intros ([|k] & id' & Hk & -> & Hk').
      * left. cbn [take firstn] in Hk'; rewrite ?take_0 in Hk'. rewrite Hv in Hk'. simplify_eq.
        f_equal. lia.
      * right. by exists k, id'.
Qed.
End EnumerationByVerdict.

Section EnumerationInvariant.
Context `{M : Model}.

Lemma sub_at front suffix k :
  sub (front ++ suffix) (length front) (length front + k) = take (S k) suffix.
Proof.
  unfold sub. rewrite drop_app_length. f_equal. lia.
Qed.

Lemma scan_at suffix start arcs :
  scan suffix start start GetInitial 0 arcs true =
    (λ found, (arcs ++ found, bool_decide (found = [])))
      <$> model_scan [] suffix start start.
Proof. by rewrite (scan_model_scan suffix []). Qed.

Lemma fallback_keeps arcs start UnkId b :
  b ∈ arcs → _Id b ≠ UnkId → b ∈ fallback arcs start UnkId.
Proof.
  intros Hb Hid. rewrite fallback_last.
  destruct (last arcs) as [a|] eqn:Ha; [|apply elem_of_app; by left].
  case_decide as Hida; [|apply elem_of_app; by left].
  rewrite last_lookup in Ha.
  apply list_elem_of_lookup_1 in Hb as [j Hj].
  apply (list_elem_of_lookup_2 _ j).
  rewrite list_lookup_insert_ne; [done|]. intros <-. congruence.
Qed.

Lemma fallback_covers arcs start UnkId InSize bound p :
  Forall (arc_in_range InSize bound) arcs → (bound ≤ start)%nat →
  (p = start ∨
   ∃ a, a ∈ arcs ∧ _Id a = UnkId ∧ (_Start a ≤ p ≤ _End a)%nat ∧
        (p < start)%nat) →
  ∃ a, a ∈ fallback arcs start UnkId ∧ _Id a = UnkId ∧
       (_Start a ≤ p ≤ _End a)%nat.
Proof.
  intros Hrange Hbound Hp. rewrite fallback_last.
  destruct (last arcs) as [a|] eqn:Ha.
  2:{ destruct Hp as [->|(a & Ha' & Hid & Hcov & _)].
      - exists (mkArc start start UnkId).
        split; [apply elem_of_app; right; by apply list_elem_of_singleton|].
        simpl. split; [done|lia].
      - exists a. split; [apply elem_of_app; by left|done]. }
  rewrite last_lookup in Ha.
  pose proof (lookup_lt_Some _ _ _ Ha) as Hlt.
  pose proof (Forall_lookup_1 _ _ _ _ Hrange Ha) as (? & ? & ?).
  case_decide as Hida.
  - assert (mkArc (_Start a) start (_Id a)
              ∈ <[pred (length arcs) := mkArc (_Start a) start (_Id a)]> arcs)
      as Hnew by (by apply list_elem_of_insert).
    destruct Hp as [->|(a0 & Ha0 & Hid0 & Hcov & Hlt0)].
    + eexists. split; [exact Hnew|]. simpl. split; [done|lia].
    + apply list_elem_of_lookup_1 in Ha0 as [j Hj].
      destruct (decide (j = pred (length arcs))) as [->|Hne].
      * simplify_eq. eexists. split; [exact Hnew|]. simpl. split; [done|lia].
      * exists a0. split; [|done]. apply (list_elem_of_lookup_2 _ j).
        by rewrite list_lookup_insert_ne.
  - destruct Hp as [->|(a0 & Ha0 & Hid0 & Hcov & _)].
    + exists (mkArc start start UnkId).
      split; [apply elem_of_app; right; by apply list_elem_of_singleton|].
      simpl. split; [done|lia].
    + exists a0. split; [apply elem_of_app; by left|done].
Qed.

(** One turn of the outer loop keeps [enumerated]. *)
Lemma enumerated_step front Iw suffix UnkId arcs found :
  let pIn := front ++ Iw :: suffix in
  let start := length front in
  model_scan [] (Iw :: suffix) start start = Some found →
  enumerated pIn UnkId start arcs →
  enumerated pIn UnkId (S start)
    (if bool_decide (found = [])
     then fallback arcs start UnkId else arcs ++ found).
Proof.
  intros pIn start Hscan (Hsound & Hcomplete & Hunk).
  assert (length pIn = start + S (length suffix))%nat as Hlen
    by (unfold pIn, start; rewrite length_app; simpl; lia).
  assert (∀ a, a ∈ found ↔
            ∃ k id, (k < S (length suffix))%nat ∧
                    a = mkArc start (start + k) id ∧
                    verdict (sub pIn start (start + k)) = Match id) as Hfound.
  { intros a. rewrite (model_scan_Some _ _ _ _ _ a Hscan). simpl.
    unfold pIn, start. by setoid_rewrite sub_at. }
  assert (Forall (arc_in_range (length pIn) start) arcs) as Hrange.
  { eapply Forall_impl; [exact Hsound|]. by intros a [? _]. }
  assert (Forall (λ a, arc_in_range (length pIn) (S start) a ∧
                       (_Id a = UnkId ∨
                        verdict (sub pIn (_Start a) (_End a)) = Match (_Id a)))
                 arcs) as Hsound'.
  { eapply Forall_impl; [exact Hsound|]. intros a [Ha ?]. split; [|done].
    eapply arc_in_range_mono; [|done]. lia. }
  case_bool_decide as Hnil.
  - subst found. split; [|split].
    + rewrite fallback_last. destruct (last arcs) as [a|] eqn:Ha.
      * rewrite last_lookup in Ha.
        pose proof (Forall_lookup_1 _ _ _ _ Hsound Ha) as [(? & ? & ?) _].
        case_decide.
        -- apply Forall_insert; [done|]. unfold arc_in_range. simpl.
           split; [lia|by left].
        -- apply Forall_app_2; [done|]. apply Forall_singleton.
           unfold arc_in_range. simpl. split; [lia|by left].
      * apply Forall_app_2; [done|]. apply Forall_singleton.
        unfold arc_in_range. simpl. split; [lia|by left].
    + intros s e id Hs He Hv Hid.
      destruct (decide (s = start)) as [->|Hne].
      * exfalso. apply (elem_of_nil (mkArc start e id)), Hfound.
        exists (e - start)%nat, id.
        replace (start + (e - start))%nat with e by lia.
        split; [lia|done].
      * apply fallback_keeps; [|done]. apply (Hcomplete s e id); [lia|done..].
    + intros p Hp Hnone.
      apply (fallback_covers _ _ _ (length pIn) start); [done|lia|].
      destruct (decide (p = start)) as [->|Hne]; [by left|right].
      destruct (Hunk p) as (a & Ha & Hid & Hcov); [lia|done|].
      exists a. repeat split; [done..|lia|lia|lia].
  - split; [|split].
    + apply Forall_app_2; [done|]. apply Forall_forall.
      intros a (k & id & Hk & -> & Hv)%Hfound.
      unfold arc_in_range. simpl. split; [lia|by right].
    + intros s e id Hs He Hv Hid. apply elem_of_app.
      destruct (decide (s = start)) as [->|Hne].
      * right. apply Hfound. exists (e - start)%nat, id.
        replace (start + (e - start))%nat with e by lia.
        split; [lia|done].
      * left. apply (Hcomplete s e id); [lia|done..].
    + intros p Hp Hnone.
      destruct (decide (p = start)) as [->|Hne].
      * exfalso. destruct found as [|a found]; [done|].
        destruct (proj1 (Hfound a)) as (k & id & Hk & -> & Hv);
          [by left|].
        apply (Hnone (start + k)%nat id); [lia|done].
      * destruct (Hunk p) as (a & Ha & Hid & Hcov); [lia|done|].
        exists a. split; [apply elem_of_app; by left|done].
Qed.

Lemma populate_enumerated suffix :
  ∀ front UnkId arcs arcs',
    populate suffix (length front) UnkId arcs = Some arcs' →
    enumerated (front ++ suffix) UnkId (length front) arcs →
    enumerated (front ++ suffix) UnkId (length (front ++ suffix)) arcs'.
Proof.
  induction suffix as [|Iw suffix IH]; intros front UnkId arcs arcs' Hpop Hinv.
  { simpl in Hpop. simplify_eq. by rewrite (right_id_L [] (++)) in *. }
  cbn [populate] in Hpop. rewrite scan_at in Hpop.
  destruct (model_scan [] (Iw :: suffix) (length front) (length front))
    as [found|] eqn:Hscan; [|done].
  simpl in Hpop.
  pose proof (enumerated_step front Iw suffix UnkId arcs found Hscan Hinv)
    as Hstep.
  rewrite cons_middle, (assoc_L (++)) in *.
  assert (length (front ++ [Iw]) = S (length front)) as Hlen
    by (rewrite length_app; simpl; lia).
  apply (IH (front ++ [Iw]) UnkId
           (if bool_decide (found = [])
            then fallback arcs (length front) UnkId else arcs ++ found)).
  - rewrite Hlen, <-Hpop. f_equal.
    case_bool_decide as Hnil; [|done]. subst found.
    by rewrite (right_id_L [] (++)).
  - by rewrite Hlen.
Qed.
End EnumerationInvariant.

Section EnumerationTheorems.
Context `{M : Model}.

Lemma enumerated_nil pIn UnkId : enumerated pIn UnkId 0 [].
Proof.
  split; [constructor|]. split.
  - intros s e id Hs. lia.
  - intros p Hp. lia.
Qed.

Lemma populate_None suffix :
  ∀ front UnkId arcs,
    populate suffix (length front) UnkId arcs = None ↔
    ∃ s e, (length front ≤ s ≤ e)%nat ∧ (e < length (front ++ suffix))%nat ∧
           verdict (sub (front ++ suffix) s e) = MissingInfo.
Proof.
  induction suffix as [|Iw suffix IH]; intros front UnkId arcs.
  { split; [done|]. intros (s & e & Hs & He & _).
    rewrite (right_id_L [] (++)) in He. lia. }
  cbn [populate]. rewrite scan_at.
  assert (length (front ++ [Iw]) = S (length front)) as Hlen
    by (rewrite length_app; simpl; lia).
  assert (length (front ++ Iw :: suffix) = length front + S (length suffix))%nat
    as Hlen' by (rewrite length_app; simpl; lia).
  destruct (model_scan [] (Iw :: suffix) (length front) (length front))
    as [found|] eqn:Hscan; simpl.
  - assert (front ++ Iw :: suffix = (front ++ [Iw]) ++ suffix) as Happ
      by (by rewrite <-(assoc_L (++))).
    rewrite <-Hlen, IH, Hlen, <-Happ.
    split; intros (s & e & Hs & He & Hv); exists s, e.
    + split; [lia|by split].
    + split; [|by split].
      destruct (decide (s = length front)) as [->|]; [|lia].
      exfalso.
      assert (model_scan [] (Iw :: suffix) (length front) (length front)
                = None) as Hnone; [|congruence].
      apply model_scan_None. exists (e - length front)%nat.
      split; [simpl; lia|].
      rewrite <-(sub_at front (Iw :: suffix)).
      by replace (length front + (e - length front))%nat with e by lia.
  - split; [intros _|done].
    apply model_scan_None in Hscan as (k & Hk & Hv).
    exists (length front), (length front + k)%nat.
    split; [lia|]. split; [simpl in Hk; lia|]. by rewrite sub_at.
Qed.

(** X3.  Whenever the enumeration completes, the arcs of the buffer that
    carry another id than [UnkId] are exactly the substrings of the input
    that the model accepts, each with the first value of its info: such an
    arc [{s, e, id}] is in the buffer if and only if [s <= e < InSize] and
    the automaton, run over [pIn[s..e]] from the initial state, ends in a
    final state whose info starts with [id]. *)
Theorem populate_matched_arcs pIn UnkId arcs :
  populate pIn 0 UnkId [] = Some arcs →
  ∀ s e id,
    id ≠ UnkId →
    mkArc s e id ∈ arcs ↔
    (s ≤ e < length pIn)%nat ∧ verdict (sub pIn s e) = Match id.
Proof.
  intros Hpop s e id Hid.
  destruct (populate_enumerated pIn [] UnkId [] arcs Hpop
              (enumerated_nil pIn UnkId)) as (Hsound & Hcomplete & _).
  simpl in *. split.
  - intros Ha. rewrite Forall_forall in Hsound.
    destruct (Hsound _ Ha) as [(? & ? & ?) [?|?]]; simpl in *; [done|].
    split; [lia|done].
  - intros [Hse Hv]. apply (Hcomplete s e id); [lia|done..].
Qed.

(** X4.  Whenever the enumeration completes, every position from which no
    substring is accepted lies inside an arc of the buffer that carries
    [UnkId]: the fallback leaves no unmatched start without an unknown
    arc over it. *)
Theorem populate_unknown_covered pIn UnkId arcs p :
  populate pIn 0 UnkId [] = Some arcs →
  (p < length pIn)%nat →
  (∀ e id, (p ≤ e < length pIn)%nat → verdict (sub pIn p e) ≠ Match id) →
  ∃ a, a ∈ arcs ∧ _Id a = UnkId ∧ (_Start a ≤ p ≤ _End a)%nat.
Proof.
  intros Hpop Hp Hnone.
  destruct (populate_enumerated pIn [] UnkId [] arcs Hpop
              (enumerated_nil pIn UnkId)) as (_ & _ & Hunk).
  by apply Hunk.
Qed.

(** The enumeration is cut short by the [LogAssert] on the info lookup
    exactly when some substring of the input is accepted by the automaton
    while the info stored under its key is empty. *)
Lemma populate_aborts_iff pIn UnkId :
  populate pIn 0 UnkId [] = None ↔
  ∃ s e, (s ≤ e < length pIn)%nat ∧ verdict (sub pIn s e) = MissingInfo.
Proof.
  rewrite (populate_None pIn [] UnkId []). simpl. split.
  - intros (s & e & Hs & He & Hv). exists s, e. split; [lia|done].
  - intros (s & e & Hs & Hv). exists s, e. split; [lia|]. split; [lia|done].
Qed.
End EnumerationTheorems.

Lemma populate_matched_arcs_witness :
  mkArc 0 2 4 ∈
    [mkArc 0 0 1; mkArc 0 1 2; mkArc 0 2 4; mkArc 1 1 3; mkArc 2 3 100] ↔
  (0 ≤ 2 < length (codes "abcx"))%nat ∧
  @verdict scenario_model (sub (codes "abcx") 0 2) = Match 4.
Proof.
  apply (@populate_matched_arcs scenario_model (codes "abcx") 100).
  - by vm_compute.
  - done.
Defined.

Lemma populate_unknown_covered_witness :
  ∃ a, a ∈ [mkArc 0 1 100; mkArc 2 2 1; mkArc 2 3 2; mkArc 3 3 3] ∧
       _Id a = 100 ∧ (_Start a ≤ 1 ≤ _End a)%nat.
Proof.
  apply (@populate_unknown_covered scenario_model (codes "xxab") 100).
  - by vm_compute.
  - simpl. lia.
  - intros e id He. simpl in He.
    destruct e as [|[|[|[|e]]]]; try lia; by vm_compute.
Defined.

Lemma sub_take pIn n s e :
  (e < n)%nat → sub (take n pIn) s e = sub pIn s e.
Proof.
  intros He. unfold sub. apply list_eq. intros j.
  destruct (decide (j < S e - s)%nat).
  - rewrite !lookup_take_lt, !lookup_drop, lookup_take_lt by lia. done.
  - by rewrite !lookup_take_ge by lia.
Qed.

(** X5.  A call on a nonempty input ends in a failed [LogAssert] in
    exactly two cases: [InSize] exceeds [MaxArrSize], or some substring
    of the input is accepted by the automaton while the info stored under
    its key is empty.  In both cases the caller's buffer is as it was
    passed in; in every other case the call does not fail, whatever the
    input. *)
Theorem Process_aborts_iff `{L : FALimits} `{M : Model} `{Q : QSort}
    fuel pIn InSize pOut MaxOutSize UnkId pOut' :
  0 < InSize →
  InSize ≤ Z.of_nat (length pIn) →
  Process fuel pIn InSize pOut MaxOutSize UnkId = LogAssertFailed pOut' ↔
  pOut' = pOut ∧
  (MaxArrSize < InSize ∨
   ∃ s e, (s ≤ e < Z.to_nat InSize)%nat ∧
          verdict (sub pIn s e) = MissingInfo).
Proof.
  intros Hpos Hlen. unfold Process, LogAssert.
  destruct (Z.geb_spec 0 InSize); [lia|].
  destruct (Z.leb_spec InSize MaxArrSize) as [Hmax|Hmax].
  2:{ split; [intros [= <-]; split; [done|left; lia]|by intros [-> _]]. }
  assert (length (take (Z.to_nat InSize) pIn) = Z.to_nat InSize) as Htake
    by (rewrite length_take; lia).
  destruct (populate (take (Z.to_nat InSize) pIn) 0 UnkId []) as [arcs|]
    eqn:Hpop.
  - split.
    + by destruct (copy_results _ _ _ _ _ _ _) as [[? ?]|].
    + intros [_ [?|(s & e & Hse & Hv)]]; [lia|].
      assert (populate (take (Z.to_nat InSize) pIn) 0 UnkId [] = None)
        as Hnone; [|congruence].
      apply populate_aborts_iff. exists s, e. rewrite Htake.
      split; [done|]. rewrite sub_take by lia. done.
  - split; [|by intros [-> _]].
    intros [= <-]. split; [done|right].
    apply populate_aborts_iff in Hpop as (s & e & Hse & Hv).
    rewrite Htake in Hse. exists s, e. split; [done|].
    by rewrite sub_take in Hv by lia.
Qed.

Lemma Process_aborts_iff_witness :
  @Process small_limits infoless_model stable_qsort
    5 (codes "xa") 2 [7; 7; 7] 3 100 = LogAssertFailed [7; 7; 7].
Proof.
  apply (@Process_aborts_iff small_limits infoless_model stable_qsort).
  - lia.
  - simpl. lia.
  - split; [done|]. right. exists 1%nat, 1%nat.
    split; [simpl; lia|by vm_compute].
Defined.

(** ** What the cover loop maintains *)

Lemma memset_lookup (p : list Z) s e q :
  (s ≤ e < length p)%nat →
  (if bool_decide (0 < e - s)%nat then memset p (s + 1) 1 (e - s) else p)
    !!! q = if decide (s < q ≤ e)%nat then 1 else p !!! q.
Proof.
  intros Hse. case_bool_decide.
  - unfold memset. case_decide.
    + rewrite list_lookup_total_inserts
        by (rewrite ?length_replicate; lia).
      apply lookup_total_replicate_2. lia.
    + destruct (decide (q < s + 1)%nat).
      * by rewrite list_lookup_total_inserts_lt by lia.
      * by rewrite list_lookup_total_inserts_ge
          by (rewrite length_replicate; lia).
  - case_decide; [lia|done].
Qed.

Lemma cover_inv_ext InSize UnkId (P P' : _TArc → Prop) c :
  (∀ a, P a ↔ P' a) → cover_inv InSize UnkId P c → cover_inv InSize UnkId P' c.
Proof.
  intros HP (Ht & Hi & Hm & Hrange & Hlam & Hmark & Hmax & Htab).
  do 3 (split; [done|]).
  split; [by intros a ?%HP%Hrange|].
  split; [intros a b ?%HP ?%HP; by apply Hlam|].
  split.
  { intros q Hq. rewrite (Hmark q Hq).
    split; intros (b & Hb%HP & ?); by exists b. }
  split; [intros b ?%HP; by apply Hmax|].
  intros p Hp. destruct (Htab p Hp) as [(? & ? & Hno)|Hin].
  - left. do 2 (split; [done|]). intros b ?%HP. by apply Hno.
  - right. by apply HP.
Qed.

Lemma cover_inv_init InSize UnkId :
  cover_inv InSize UnkId (λ _, False) (cover_init InSize UnkId).
Proof.
  unfold cover_inv, cover_init. cbn [pTos pIds pIntermediate].
  do 3 (split; [apply length_replicate|]).
  split; [done|]. split; [done|].
  split.
  { intros q Hq. rewrite lookup_total_replicate_2 by done.
    split; [done|]. by intros (b & [] & _). }
  split; [done|].
  intros p Hp. left. by rewrite !lookup_total_replicate_2 by done.
Qed.

(** Merging an available arc keeps the invariant. *)
Lemma cover_inv_accept InSize UnkId P c x :
  cover_inv InSize UnkId P c →
  (_Start x ≤ _End x < InSize)%nat →
  available InSize c x = true →
  cover_inv InSize UnkId (λ a, P a ∨ a = x) (cover_step InSize c x).
Proof.
  intros (Ht & Hi & Hm & Hrange & Hlam & Hmark & Hmax & Htab) Hx Hav.
  rewrite cover_step_accept by done.
  destruct x as [s e id]. simpl in *.
  unfold available in Hav. simpl in Hav.
  apply andb_true_iff in Hav as [Hs%Z.eqb_eq He].
  assert (∀ b, P b → ¬ (_Start b < s ≤ _End b)%nat) as Hs'.
  { intros b Hb Hin.
    assert (pIntermediate c !!! s ≠ 0) as Hne; [|done].
    apply Hmark; [lia|]. by exists b. }
  assert (∀ b, P b →
            ¬ (_Start b < e + 1 ≤ _End b)%nat) as He'.
  { intros b Hb Hin. apply orb_true_iff in He as [He%Nat.eqb_eq|He%Z.eqb_eq].
    - apply Hrange in Hb. lia.
    - assert (pIntermediate c !!! (e + 1)%nat ≠ 0) as Hne; [|done].
      apply Hmark; [apply Hrange in Hb; lia|]. by exists b. }
  assert (∀ q,
    (if bool_decide (0 < e - s)%nat
     then memset (pIntermediate c) (s + 1) 1 (e - s)
     else pIntermediate c) !!! q =
    if decide (s < q ≤ e)%nat then 1 else pIntermediate c !!! q) as Hset
    by (intros q; apply memset_lookup; lia).
  unfold cover_inv. cbn [pTos pIds pIntermediate _Start _End _Id].
  split; [by rewrite length_insert|].
  split; [by rewrite length_insert|].
  split; [case_bool_decide; [unfold memset; by rewrite length_inserts|done]|].
  split; [intros a [Ha| ->]; [by apply Hrange|done]|].
  split.
  { intros a b [Ha| ->] [Hb| ->] Hab; simpl in *.
    - by apply Hlam.
    - specialize (Hs' a Ha). lia.
    - specialize (He' b Hb). lia.
    - lia. }
  split.
  { intros q Hq. rewrite Hset.
    destruct (decide (s < q ≤ e)%nat) as [Hin|Hin].
    - split; [intros _|done]. exists (mkArc s e id). split; [by right|done].
    - rewrite (Hmark q Hq). split.
      + intros (b & Hb & ?). exists b. split; [by left|done].
      + intros (b & [Hb| ->] & ?); [by exists b|done]. }
  split.
  { intros b [Hb| ->]; simpl.
    - destruct (decide (_Start b = s)) as [Heq|Hne].
      + rewrite Heq, list_lookup_total_insert_eq by lia.
        specialize (He' b Hb). apply Hrange in Hb as Hb'. lia.
      + rewrite list_lookup_total_insert_ne by done. by apply Hmax.
    - rewrite list_lookup_total_insert_eq by lia. done. }
  intros p Hp. destruct (decide (p = s)) as [->|Hne].
  - right. right. by rewrite !list_lookup_total_insert_eq by lia.
  - rewrite !list_lookup_total_insert_ne by done.
    destruct (Htab p Hp) as [(? & ? & Hno)|Hin].
    + left. do 2 (split; [done|]). intros b [Hb| ->]; [by apply Hno|done].
    + right. by left.
Qed.

Lemma merged_in_snoc InSize c0 arcs x a :
  merged_in InSize c0 (arcs ++ [x]) a ↔
  merged_in InSize c0 arcs a ∨
  (a = x ∧ available InSize (cover_arcs InSize arcs c0) x = true).
Proof.
  unfold merged_in. split.
  - intros (i & Hi & Hacc). rewrite accepted_at_snoc in Hacc.
    case_decide as Hlast.
    + subst i. rewrite list_lookup_middle in Hi by done. simplify_eq.
      by right.
    + left. exists i. split; [|done].
      apply lookup_lt_Some in Hi as Hlt. rewrite length_app in Hlt.
      simpl in Hlt. by rewrite lookup_app_l in Hi by lia.
  - intros [(i & Hi & Hacc)|[-> Hav]].
    + apply lookup_lt_Some in Hi as Hlt. exists i.
      rewrite lookup_app_l, accepted_at_snoc by done.
      by rewrite decide_False by lia.
    + exists (length arcs).
      by rewrite list_lookup_middle, accepted_at_snoc, decide_True.
Qed.

(** The cover loop, run over arcs that lie in the input, establishes the
    invariant for the set of the arcs it merged. *)
Lemma cover_arcs_inv InSize UnkId arcs :
  Forall (λ a, (_Start a ≤ _End a < InSize)%nat) arcs →
  cover_inv InSize UnkId
    (merged_in InSize (cover_init InSize UnkId) arcs)
    (cover_arcs InSize arcs (cover_init InSize UnkId)).
Proof.
  induction arcs as [|x arcs IH] using rev_ind; intros Harcs.
  { eapply cover_inv_ext; [|apply cover_inv_init].
    intros a. split; [done|]. by intros (i & Hi & _). }
  apply Forall_app in Harcs as [Harcs Hx].
  rewrite Forall_singleton in Hx.
  rewrite cover_arcs_snoc.
  destruct (available InSize
              (cover_arcs InSize arcs (cover_init InSize UnkId)) x) eqn:Hav.
  - pose proof (cover_inv_accept _ _ _ _ x (IH Harcs) Hx Hav) as Hstep.
    eapply cover_inv_ext; [|exact Hstep].
    intros a. rewrite merged_in_snoc, Hav. simpl. tauto.
  - rewrite cover_step_reject by done.
    eapply cover_inv_ext; [|exact (IH Harcs)].
    intros a. rewrite merged_in_snoc, Hav. simpl.
    split; [tauto|]. by intros [?|[_ ?]].
Qed.

(** ** The walk over tables that satisfy the invariant *)

Lemma reconstruct_det InSize c :
  ∀ f1 f2 q ts1 ts2,
    reconstruct f1 InSize c q = Some ts1 →
    reconstruct f2 InSize c q = Some ts2 → ts1 = ts2.
Proof.
  induction f1 as [|f1 IH]; intros f2 q ts1 ts2 H1 H2;
    destruct f2 as [|f2]; simpl in *;
    destruct (q <? InSize)%nat; simplify_eq; try done.
  destruct (reconstruct f1 _ _ _) as [ts1'|] eqn:E1; simplify_eq/=.
  destruct (reconstruct f2 _ _ _) as [ts2'|] eqn:E2; simplify_eq/=.
  f_equal. by eapply IH.
Qed.

Lemma reconstruct_more_fuel InSize c :
  ∀ f f' q ts,
    reconstruct f InSize c q = Some ts → (f ≤ f')%nat →
    reconstruct f' InSize c q = Some ts.
Proof.
  induction f as [|f IH]; intros f' q ts Hrec Hle;
    destruct f' as [|f']; simpl in *;
    destruct (q <? InSize)%nat; simplify_eq; try done; try lia.
  destruct (reconstruct f _ _ _) as [ts'|] eqn:E; simplify_eq/=.
  by rewrite (IH f' _ ts') by (done || lia).
Qed.

Lemma reconstruct_elem InSize c :
  ∀ f q ts id s e,
    reconstruct f InSize c q = Some ts → (id, s, e) ∈ ts →
    (s < InSize)%nat ∧ id = pIds c !!! s ∧ e = pTos c !!! s.
Proof.
  induction f as [|f IH]; intros q ts id s e Hrec Hin; simpl in Hrec;
    destruct (Nat.ltb_spec q InSize); simplify_eq;
    try by apply elem_of_nil in Hin.
  destruct (reconstruct f _ _ _) as [ts'|] eqn:E; simplify_eq/=.
  apply elem_of_cons in Hin as [?|Hin]; [by simplify_eq|by eapply IH].
Qed.

Lemma partitions_covers InSize :
  ∀ ts q x,
    partitions q InSize ts → (q ≤ x < InSize)%nat →
    ∃ id s e, (id, s, e) ∈ ts ∧ (s ≤ x ≤ e)%nat.
Proof.
  induction ts as [|[[id s] e] ts IH]; intros q x Hpart Hx; simpl in Hpart.
  { lia. }
  destruct Hpart as (-> & Hse & Hpart).
  destruct (decide (x ≤ e)%nat).
  - exists id, q, e. split; [by left|lia].
  - destruct (IH (e + 1)%nat x Hpart) as (id' & s' & e' & Hin & ?); [lia|].
    exists id', s', e'. split; [by right|done].
Qed.

Lemma partitions_elem InSize :
  ∀ ts q id s e,
    partitions q InSize ts → (id, s, e) ∈ ts →
    (q ≤ s)%nat ∧ (s ≤ e < InSize)%nat.
Proof.
  induction ts as [|[[id' s'] e'] ts IH]; intros q id s e Hpart Hin.
  { by apply elem_of_nil in Hin. }
  simpl in Hpart. destruct Hpart as (-> & Hse & Hpart).
  apply elem_of_cons in Hin as [?|Hin]; [simplify_eq; lia|].
  apply (IH _ _ _ _ Hpart) in Hin. lia.
Qed.

Lemma partitions_length InSize :
  ∀ ts q, partitions q InSize ts → (q + length ts ≤ InSize)%nat.
Proof.
  induction ts as [|[[id s] e] ts IH]; intros q Hpart; simpl in *; [lia|].
  destruct Hpart as (-> & Hse & Hpart). apply IH in Hpart. lia.
Qed.

Lemma reconstruct_suffix InSize c :
  ∀ f q ts id s e,
    reconstruct f InSize c q = Some ts → partitions q InSize ts →
    (id, s, e) ∈ ts →
    ∃ f' ts', reconstruct f' InSize c s = Some ts' ∧ partitions s InSize ts'.
Proof.
  induction f as [|f IH]; intros q ts id s e Hrec Hpart Hin.
  { simpl in Hrec. destruct (q <? InSize)%nat; simplify_eq.
    by apply elem_of_nil in Hin. }
  pose proof Hrec as Hrec0. simpl in Hrec.
  destruct (Nat.ltb_spec q InSize); simplify_eq;
    [|by apply elem_of_nil in Hin].
  destruct (reconstruct f _ _ _) as [ts'|] eqn:E; simplify_eq/=.
  destruct Hpart as (_ & Hqe & Hpart).
  apply elem_of_cons in Hin as [?|Hin].
  - simplify_eq. by exists (S f), ((pIds c !!! q, q, pTos c !!! q) :: ts').
  - by eapply IH.
Qed.

Section Walk.
Context (InSize : nat) (UnkId : Z) (P : _TArc → Prop) (c : Cover).
Context (Hinv : cover_inv InSize UnkId P c).

Lemma walk_chosen p :
  (p < InSize)%nat → pTos c !!! p ≠ 0%nat →
  P (mkArc p (pTos c !!! p) (pIds c !!! p)) ∧ (p ≤ pTos c !!! p < InSize)%nat.
Proof.
  destruct Hinv as (_ & _ & _ & Hrange & _ & _ & _ & Htab).
  intros Hp Hne. destruct (Htab p Hp) as [(? & _)|Hin]; [done|].
  split; [done|]. by apply Hrange in Hin.
Qed.

Lemma walk_end_in_range p : (p < InSize)%nat → (pTos c !!! p < InSize)%nat.
Proof.
  intros Hp. destruct (decide (pTos c !!! p = 0%nat)) as [->|Hne]; [lia|].
  by apply walk_chosen.
Qed.

(** A run either moves forward all the way, or at some point steps back
    to position 1 and finishes from there. *)
Lemma reconstruct_forward_or_back :
  ∀ f q ts,
    reconstruct f InSize c q = Some ts → (q ≤ InSize)%nat →
    partitions q InSize ts ∨
    ∃ f' ts', (f' < f)%nat ∧ reconstruct f' InSize c 1 = Some ts'.
Proof.
  induction f as [|f IH]; intros q ts Hrec Hq; simpl in Hrec;
    destruct (Nat.ltb_spec q InSize); simplify_eq;
    try (left; simpl; lia).
  destruct (reconstruct f _ _ _) as [ts'|] eqn:E; simplify_eq/=.
  pose proof (walk_end_in_range q ltac:(done)) as Hend.
  destruct (decide (q ≤ pTos c !!! q)%nat) as [Hfwd|Hback].
  - destruct (IH _ _ E) as [Hpart|(f' & ts'' & Hf' & Hrec')]; [lia| |].
    + left. done.
    + right. exists f', ts''. split; [lia|done].
  - right. exists f, ts'. split; [lia|].
    assert (pTos c !!! q = 0%nat) as Hzero.
    { destruct (decide (pTos c !!! q = 0%nat)) as [|Hne]; [done|].
      apply walk_chosen in Hne; [lia|done]. }
    by rewrite Hzero in E.
Qed.

Lemma reconstruct_from_1 f ts :
  (1 ≤ InSize)%nat →
  reconstruct f InSize c 1 = Some ts → partitions 1 InSize ts.
Proof.
  intros Hn. revert ts.
  induction f as [f IH] using lt_wf_ind. intros ts Hrec.
  destruct (reconstruct_forward_or_back f 1%nat ts Hrec Hn)
    as [Hpart|(f' & ts' & Hf' & Hrec')]; [done|].
  rewrite (reconstruct_det _ _ _ _ _ _ _ Hrec Hrec'). by eapply IH.
Qed.

(** Partial correctness of the walk: whenever it ends, what it has
    produced is a contiguous partition of [0, InSize - 1]. *)
Lemma reconstruct_returns_partition f ts :
  reconstruct f InSize c 0 = Some ts → partitions 0 InSize ts.
Proof.
  intros Hrec.
  destruct (reconstruct_forward_or_back f 0%nat ts Hrec ltac:(lia))
    as [Hpart|(f' & Y & Hf' & HrecY)]; [done|].
  destruct f as [|f]; [lia|]. simpl in Hrec.
  destruct (Nat.ltb_spec 0 InSize) as [Hn|]; simplify_eq; [|simpl; lia].
  destruct (reconstruct f _ _ _) as [ts1|] eqn:E; simplify_eq/=.
  pose proof (walk_end_in_range 0%nat Hn) as Hend.
  split; [done|]. split; [lia|].
  pose proof (reconstruct_from_1 f' Y ltac:(lia) HrecY) as HY.
  destruct (reconstruct_forward_or_back f _ ts1 E ltac:(lia))
    as [Hpart|_]; [done|].
  destruct (decide (pTos c !!! 0%nat + 1 = InSize)%nat) as [Heq|Hne].
  { rewrite Heq, reconstruct_done in E by done. simplify_eq. by simpl. }
  destruct (partitions_covers InSize Y 1%nat (pTos c !!! 0%nat + 1)%nat HY)
    as (id & y & e & Hin & Hy); [lia|].
  destruct (reconstruct_elem _ _ _ _ _ _ _ _ HrecY Hin) as (Hyn & -> & ->).
  destruct (reconstruct_suffix _ _ _ _ _ _ _ _ HrecY HY Hin)
    as (f'' & Y' & HrecY' & HY').
  destruct (partitions_elem _ _ _ _ _ _ HY Hin) as [Hy1 Hye].
  destruct (decide (y = pTos c !!! 0%nat + 1)%nat) as [->|Hlt].
  { by rewrite (reconstruct_det _ _ _ _ _ _ _ E HrecY'). }
  exfalso.
  destruct (walk_chosen 0%nat Hn) as [H0 _]; [lia|].
  destruct (walk_chosen y Hyn) as [Hy' _]; [lia|].
  destruct Hinv as (_ & _ & _ & _ & Hlam & _).
  specialize (Hlam _ _ H0 Hy'). simpl in Hlam. lia.
Qed.
End Walk.

Section WalkTotal.
Context (InSize : nat) (UnkId : Z) (P : _TArc → Prop) (c : Cover).
Context (Hinv : cover_inv InSize UnkId P c).
Context (Hsettled : ∀ p, (p < InSize)%nat → settled P c p).

Lemma walk_free_chosen q :
  (q < InSize)%nat → pIntermediate c !!! q = 0 →
  P (mkArc q (pTos c !!! q) (pIds c !!! q)) ∧ (q ≤ pTos c !!! q < InSize)%nat.
Proof.
  intros Hq Hfree.
  destruct Hinv as (_ & _ & _ & Hrange & _ & _ & _ & Htab).
  destruct (Hsettled q Hq) as [?|(b & Hb & Hstart)]; [done|].
  destruct (Htab q Hq) as [(_ & _ & Hno)|Hin].
  - by destruct (Hno b Hb).
  - split; [done|]. by apply Hrange in Hin.
Qed.

Lemma walk_next_free q :
  (q < InSize)%nat → pIntermediate c !!! q = 0 →
  (pTos c !!! q + 1 < InSize)%nat →
  pIntermediate c !!! (pTos c !!! q + 1)%nat = 0.
Proof.
  intros Hq Hfree Hnext.
  destruct (walk_free_chosen q Hq Hfree) as [Hchosen Hqe].
  destruct Hinv as (_ & _ & _ & Hrange & Hlam & Hmark & Hmax & _).
  destruct (decide (pIntermediate c !!! (pTos c !!! q + 1)%nat = 0))
    as [|Hne]; [done|exfalso].
  apply Hmark in Hne as (b & Hb & Hin); [|done].
  destruct (Nat.lt_total (_Start b) q) as [Hlt|[Heq|Hgt]].
  - assert (pIntermediate c !!! q ≠ 0) as Hq'; [|done].
    apply Hmark; [done|]. exists b. split; [done|lia].
  - specialize (Hmax b Hb). rewrite Heq in Hmax. lia.
  - specialize (Hlam _ _ Hchosen Hb). simpl in Hlam. lia.
Qed.

Lemma reconstruct_total_from :
  ∀ k q,
    (InSize - q ≤ k)%nat → (q ≤ InSize)%nat →
    ((q < InSize)%nat → pIntermediate c !!! q = 0) →
    ∃ ts, reconstruct k InSize c q = Some ts ∧ partitions q InSize ts.
Proof.
  induction k as [|k IH]; intros q Hk Hq Hfree.
  { exists []. rewrite reconstruct_done by lia. split; [done|simpl; lia]. }
  destruct (decide (q = InSize)) as [->|Hne].
  { exists []. rewrite reconstruct_done by lia. split; [done|by simpl]. }
  assert (q < InSize)%nat as Hlt by lia.
  destruct (walk_free_chosen q Hlt (Hfree Hlt)) as [_ Hqe].
  destruct (IH (pTos c !!! q + 1)%nat) as (ts & Hrec & Hpart); [lia|lia| |].
  { intros ?. by apply walk_next_free; [|apply Hfree|]. }
  exists ((pIds c !!! q, q, pTos c !!! q) :: ts).
  rewrite reconstruct_step, Hrec by done. split; [done|]. simpl.
  split; [done|]. split; [lia|done].
Qed.

(** Total correctness of the walk when every position is settled: with
    [InSize] turns it ends, on a contiguous partition. *)
Lemma reconstruct_total fuel :
  (InSize ≤ fuel)%nat →
  ∃ ts, reconstruct fuel InSize c 0 = Some ts ∧ partitions 0 InSize ts.
Proof.
  intros Hfuel. apply reconstruct_total_from; [lia|lia|].
  intros Hn. destruct Hinv as (_ & _ & _ & _ & _ & Hmark & _).
  destruct (decide (pIntermediate c !!! 0%nat = 0)) as [|Hne]; [done|].
  apply Hmark in Hne as (b & _ & ?); [lia|done].
Qed.
End WalkTotal.

(** Over a well-covered buffer the cover loop settles every position. *)
Lemma cover_arcs_settles InSize UnkId arcs :
  Forall (λ a, (_Start a ≤ _End a < InSize)%nat) arcs →
  ∀ l rest,
    arcs = l ++ rest →
    ∀ a, a ∈ l →
      (_End a = _Start a →
       settled (merged_in InSize (cover_init InSize UnkId) l)
               (cover_arcs InSize l (cover_init InSize UnkId)) (_Start a)) ∧
      (isolated arcs a → merged_in InSize (cover_init InSize UnkId) l a).
Proof.
  intros Harcs. induction l as [|x l IH] using rev_ind; intros rest Heq a Ha.
  { by apply elem_of_nil in Ha. }
  assert (Forall (λ a, (_Start a ≤ _End a < InSize)%nat) l) as Hl.
  { rewrite Heq, <-(assoc_L (++)) in Harcs. by apply Forall_app in Harcs as [? _]. }
  assert (_Start x ≤ _End x < InSize)%nat as Hx.
  { rewrite Forall_forall in Harcs. apply Harcs. rewrite Heq.
    apply elem_of_app. left. apply elem_of_app. right. by left. }
  pose proof (cover_arcs_inv InSize UnkId l Hl) as Hinv.
  pose proof (cover_arcs_inv InSize UnkId (l ++ [x])) as Hinv'.
  assert (Forall (λ a, (_Start a ≤ _End a < InSize)%nat) (l ++ [x])) as Hlx
    by (apply Forall_app_2; [done|by apply Forall_singleton]).
  specialize (Hinv' Hlx).
  set (c0 := cover_init InSize UnkId) in *.
  assert (∀ b, merged_in InSize c0 l b → b ∈ arcs) as Hsub.
  { intros b (i & Hi & _). rewrite Heq. apply elem_of_app. left.
    apply elem_of_app. left. by eapply list_elem_of_lookup_2. }
  set (c := cover_arcs InSize l c0) in *.
  destruct Hinv as (_ & _ & Hlen & Hrange & _ & Hmark & _).
  destruct Hinv' as (_ & _ & _ & _ & _ & Hmark' & _).
  rewrite cover_arcs_snoc. fold c.
  assert (∀ b, merged_in InSize c0 l b → merged_in InSize c0 (l ++ [x]) b)
    as Hmono by (intros b Hb; apply merged_in_snoc; by left).
  apply elem_of_app in Ha as [Ha|Ha%list_elem_of_singleton].
  - destruct (IH (x :: rest)) with (a := a) as [Hsingle Hiso];
      [by rewrite Heq, <-(assoc_L (++))|done|].
    split; [|intros ?; by apply Hmono, Hiso].
    intros Hse. destruct (Hsingle Hse) as [Hne|(b & Hb & Hstart)].
    + left. rewrite cover_arcs_snoc in Hmark'. fold c in Hmark'.
      assert (_Start a < InSize)%nat as Hlt.
      { rewrite Forall_forall in Hl. apply Hl in Ha. lia. }
      apply Hmark in Hne as (b & Hb & Hin); [|done].
      apply Hmark'; [done|]. exists b. split; [by apply Hmono|done].
    + right. exists b. split; [by apply Hmono|done].
  - subst a.
    assert (_Start x < InSize)%nat as Hlt by lia.
    destruct (available InSize c x) eqn:Hav.
    { assert (merged_in InSize c0 (l ++ [x]) x) as Hmerged
        by (apply merged_in_snoc; by right).
      split; [|done]. intros _. right. by exists x. }
    rewrite cover_step_reject by done.
    unfold available in Hav.
    assert ((∃ b, merged_in InSize c0 l b ∧ (_Start b < _Start x ≤ _End b)%nat) ∨
            (∃ b, merged_in InSize c0 l b ∧
                  (_Start x ≤ _Start b ≤ _End x)%nat ∧ (_End x < _End b)%nat))
      as Hblock.
    { apply andb_false_iff in Hav as [Hs|He].
      - apply Z.eqb_neq in Hs. apply Hmark in Hs as (b & Hb & ?); [|done].
        left. by exists b.
      - apply orb_false_iff in He as [Hn%Nat.eqb_neq He%Z.eqb_neq].
        apply Hmark in He as (b & Hb & ?); [|lia].
        destruct (decide (_Start b < _Start x)%nat).
        + left. exists b. split; [done|lia].
        + right. exists b. split; [done|lia]. }
    split.
    + intros Hse. destruct Hblock as [(b & Hb & Hin)|(b & Hb & Hin & Hend)].
      * left. apply Hmark; [done|]. by exists b.
      * right. exists b. split; [by apply Hmono|lia].
    + intros Hiso. exfalso.
      destruct Hblock as [(b & Hb & Hin)|(b & Hb & Hin & Hend)];
        destruct (Hiso b (Hsub b Hb)) as [->|[?|?]]; lia.
Qed.

Lemma cover_walk_total InSize UnkId arcs fuel :
  Forall (λ a, (_Start a ≤ _End a < InSize)%nat) arcs →
  well_covered InSize arcs →
  (InSize ≤ fuel)%nat →
  ∃ ts,
    reconstruct fuel InSize
      (cover_arcs InSize arcs (cover_init InSize UnkId)) 0 = Some ts ∧
    partitions 0 InSize ts.
Proof.
  intros Harcs Hcov Hfuel.
  pose proof (cover_arcs_inv InSize UnkId arcs Harcs) as Hinv.
  eapply reconstruct_total; [exact Hinv| |done].
  intros p Hp.
  pose proof (cover_arcs_settles InSize UnkId arcs Harcs arcs []
                ltac:(by rewrite (right_id_L [] (++)))) as Hset.
  destruct (Hcov p Hp) as [(a & Ha & Hs & He)|(a & Ha & Hin & Hiso)].
  - destruct (Hset a Ha) as [Hsingle _]. rewrite <-Hs. apply Hsingle. lia.
  - destruct (Hset a Ha) as [_ Hmerged]. specialize (Hmerged Hiso).
    destruct (decide (p = _Start a)) as [->|Hne].
    + right. by exists a.
    + left. destruct Hinv as (_ & _ & _ & _ & _ & Hmark & _).
      apply Hmark; [done|]. exists a. split; [done|lia].
Qed.

Lemma segment_Triples `{L : FALimits} `{M : Model} `{Q : QSort}
    fuel pIn InSize UnkId ts :
  segment fuel pIn InSize UnkId = Triples ts →
  (InSize ≤ 0 ∧ ts = []) ∨
  (0 < InSize ≤ MaxArrSize ∧
   ∃ arcs,
     populate (take (Z.to_nat InSize) pIn) 0 UnkId [] = Some arcs ∧
     reconstruct fuel (Z.to_nat InSize)
       (cover_arcs (Z.to_nat InSize) (qsort arcs)
          (cover_init (Z.to_nat InSize) UnkId)) 0 = Some ts).
Proof.
  unfold segment.
  destruct (Z.geb_spec 0 InSize); [intros [= <-]; left; by split; [lia|]|].
  destruct (Z.leb_spec InSize MaxArrSize); [|done].
  destruct (populate _ _ _ _) as [arcs|]; [|done].
  destruct (reconstruct _ _ _ _) as [ts'|] eqn:Hrec; [|done].
  intros [= <-]. right. split; [lia|]. by exists arcs.
Qed.

Lemma qsort_in_range `{M : Model} `{Q : QSort} pIn n UnkId arcs :
  populate (take n pIn) 0 UnkId [] = Some arcs →
  Forall (λ a, (_Start a ≤ _End a < n)%nat) (qsort arcs).
Proof.
  intros Hpop. rewrite qsort_perm.
  eapply Forall_impl; [by apply populate_in_range in Hpop|].
  simpl. intros a. rewrite length_take. lia.
Qed.

Lemma segment_partition `{L : FALimits} `{M : Model} `{Q : QSort}
    fuel pIn InSize UnkId ts :
  segment fuel pIn InSize UnkId = Triples ts →
  partitions 0 (Z.to_nat InSize) ts.
Proof.
  intros [[Hle ->]|(Hsize & arcs & Hpop & Hrec)]%segment_Triples.
  { simpl. lia. }
  eapply reconstruct_returns_partition; [|exact Hrec].
  apply cover_arcs_inv. by eapply qsort_in_range.
Qed.

(** ** Whenever the call returns *)

(** X6.  Partial correctness.  Whenever a call returns, for any model, any
    input and any conforming sort, the triples it has produced form a
    contiguous partition of the input: the first starts at 0, each next
    one starts right after the end of the previous one, no end is before
    its start, and the last one ends at [InSize - 1].  (On the inputs for
    which this cannot be achieved the call does not return.) *)
Theorem Process_returns_partition `{L : FALimits} `{M : Model} `{Q : QSort}
    fuel pIn InSize pOut MaxOutSize UnkId ret pOut' :
  Process fuel pIn InSize pOut MaxOutSize UnkId = Returned ret pOut' →
  ∃ ts,
    segment fuel pIn InSize UnkId = Triples ts ∧
    ret = 3 * Z.of_nat (length ts) ∧
    partitions 0 (Z.to_nat InSize) ts.
Proof.
  intros (ts & Hseg & -> & _)%Process_returned.
  exists ts. split; [done|]. split; [done|]. by eapply segment_partition.
Qed.

Lemma Process_returns_partition_witness :
  ∃ ts,
    @segment small_limits scenario_model stable_qsort 4 (codes "xxab") 4 100
      = Triples ts ∧
    6 = 3 * Z.of_nat (length ts) ∧
    partitions 0 (Z.to_nat 4) ts.
Proof.
  apply (@Process_returns_partition small_limits scenario_model stable_qsort
           4 (codes "xxab") 4 [] 0 100 6 []).
  by vm_compute.
Defined.

(** X7.  The size a call returns is at most [3 * InSize]: a buffer of
    [3 * InSize] cells is always enough.  A call that is given
    [MaxOutSize >= 3 * InSize] and a buffer of that capacity, and returns,
    has stored the whole sequence of triples. *)
Theorem Process_size_bound `{L : FALimits} `{M : Model} `{Q : QSort}
    fuel pIn InSize pOut MaxOutSize UnkId ret pOut' :
  Process fuel pIn InSize pOut MaxOutSize UnkId = Returned ret pOut' →
  0 ≤ ret ≤ 3 * Z.max 0 InSize ∧
  (3 * InSize ≤ MaxOutSize → MaxOutSize ≤ Z.of_nat (length pOut) →
   ∃ ts, segment fuel pIn InSize UnkId = Triples ts ∧
         take (Z.to_nat ret) pOut' = flatten_triples ts).
Proof.
  intros (ts & Hseg & -> & ->)%Process_returned.
  pose proof (segment_partition _ _ _ _ _ Hseg) as Hpart.
  apply partitions_length in Hpart.
  split; [lia|]. intros Hmax Hcap. exists ts. split; [done|].
  destruct (decide (ts = [])) as [->|Hne]; [done|].
  assert (0 < length ts)%nat by (destruct ts; [done|simpl; lia]).
  rewrite (store_fitting_spec _ ts pOut (length ts)) by lia.
  rewrite (take_ge (flatten_triples ts))
    by (rewrite length_flatten_triples; lia).
  rewrite take_app_length'; [done|]. rewrite length_flatten_triples. lia.
Qed.

Lemma Process_size_bound_witness :
  0 ≤ 6 ≤ 3 * Z.max 0 4 ∧
  (3 * 4 ≤ 12 → 12 ≤ Z.of_nat (length (replicate 12 7)) →
   ∃ ts, @segment small_limits scenario_model stable_qsort
           4 (codes "xxab") 4 100 = Triples ts ∧
         take (Z.to_nat 6) ([100; 0; 1; 2; 2; 3] ++ replicate 6 7) =
           flatten_triples ts).
Proof.
  apply (@Process_size_bound small_limits scenario_model stable_qsort
           4 (codes "xxab") 4 (replicate 12 7) 12 100).
  by vm_compute.
Defined.

Lemma populate_sound `{M : Model} pIn UnkId arcs a :
  populate pIn 0 UnkId [] = Some arcs → a ∈ arcs →
  _Id a = UnkId ∨ verdict (sub pIn (_Start a) (_End a)) = Match (_Id a).
Proof.
  intros Hpop Ha.
  destruct (populate_enumerated pIn [] UnkId [] arcs Hpop
              (enumerated_nil pIn UnkId)) as (Hsound & _).
  rewrite Forall_forall in Hsound. by destruct (Hsound a Ha) as [_ ?].
Qed.

(** X8.  Whenever a call returns, every triple it has produced either
    carries [UnkId] or labels a substring the model accepts: for a triple
    [(id, start, end)] with [id <> UnkId], the automaton run over
    [pIn[start..end]] from the initial state ends in a final state, and
    [id] is the first value of the info stored under the sum of the output
    weights along that run. *)
Theorem Process_ids_sound `{L : FALimits} `{M : Model} `{Q : QSort}
    fuel pIn InSize pOut MaxOutSize UnkId ret pOut' :
  Process fuel pIn InSize pOut MaxOutSize UnkId = Returned ret pOut' →
  InSize ≤ Z.of_nat (length pIn) →
  ∃ ts,
    segment fuel pIn InSize UnkId = Triples ts ∧
    ∀ id s e, (id, s, e) ∈ ts →
      id = UnkId ∨ verdict (sub pIn s e) = Match id.
Proof.
  intros (ts & Hseg & _)%Process_returned Hlen.
  exists ts. split; [done|]. intros id s e Hin.
  pose proof (segment_partition _ _ _ _ _ Hseg) as Hpart.
  destruct (partitions_elem _ _ _ _ _ _ Hpart Hin) as [_ Hse].
  apply segment_Triples in Hseg
    as [[_ ->]|(Hsize & arcs & Hpop & Hrec)];
    [by apply elem_of_nil in Hin|].
  destruct (reconstruct_elem _ _ _ _ _ _ _ _ Hrec Hin) as (Hs & -> & ->).
  pose proof (cover_arcs_inv (Z.to_nat InSize) UnkId (qsort arcs)
                (qsort_in_range _ _ _ _ Hpop))
    as (_ & _ & _ & _ & _ & _ & _ & Htab).
  destruct (Htab s Hs) as [(_ & -> & _)|(i & Hi & _)]; [by left|].
  apply list_elem_of_lookup_2 in Hi.
  remember (mkArc s _ _) as a eqn:Ha in Hi.
  rewrite qsort_perm in Hi.
  destruct (populate_sound _ _ _ _ Hpop Hi) as [Hid|Hv];
    subst a; simpl in *; [by left|right].
  by rewrite sub_take in Hv by lia.
Qed.

Lemma Process_ids_sound_witness :
  ∃ ts,
    @segment small_limits scenario_model stable_qsort 4 (codes "xxab") 4 100
      = Triples ts ∧
    ∀ id s e, (id, s, e) ∈ ts →
      id = 100 ∨ @verdict scenario_model (sub (codes "xxab") s e) = Match id.
Proof.
  apply (@Process_ids_sound small_limits scenario_model stable_qsort
           4 (codes "xxab") 4 [] 0 100 6 []).
  - by vm_compute.
  - simpl. lia.
Defined.

(** ** Which arcs can be merged together *)

Lemma accepted_at_take InSize c0 arcs k i :
  (i < k)%nat →
  accepted_at InSize c0 (take k arcs) i = accepted_at InSize c0 arcs i.
Proof.
  intros Hik. unfold accepted_at.
  rewrite lookup_take_lt, take_take by done.
  by replace (i `min` k)%nat with i by lia.
Qed.

Lemma accepted_at_tos InSize UnkId arcs j b :
  Forall (λ a, (_Start a ≤ _End a < InSize)%nat) arcs →
  arcs !! j = Some b →
  accepted_at InSize (cover_init InSize UnkId) arcs j = true →
  pTos (cover_arcs InSize (take (S j) arcs) (cover_init InSize UnkId))
    !!! _Start b = _End b.
Proof.
  intros Harcs Hb Hacc.
  rewrite (take_S_r _ _ _ Hb), cover_arcs_snoc.
  unfold accepted_at in Hacc. rewrite Hb in Hacc.
  rewrite cover_step_accept by done. simpl.
  pose proof (cover_arcs_lengths InSize (take j arcs)
                (cover_init InSize UnkId)) as [Hlen _].
  simpl in Hlen. rewrite length_replicate in Hlen.
  rewrite Forall_forall in Harcs.
  specialize (Harcs b (list_elem_of_lookup_2 _ _ _ Hb)).
  by rewrite list_lookup_total_insert_eq by lia.
Qed.

(** X9.  Two arcs that the cover loop merges never straddle: if they
    start at different positions they are disjoint, or the one that starts
    later lies within the other; if they start at the same position, the
    one merged later is at least as long.  (The test on
    [pIntermediate [End + 1]] therefore never lets a merged arc run into
    the inside of another one.) *)
Theorem merged_arcs_never_straddle InSize UnkId arcs i j a b :
  Forall (λ a, (_Start a ≤ _End a < InSize)%nat) arcs →
  arcs !! i = Some a → arcs !! j = Some b →
  accepted_at InSize (cover_init InSize UnkId) arcs i = true →
  accepted_at InSize (cover_init InSize UnkId) arcs j = true →
  ((_Start a < _Start b)%nat →
   (_End a < _Start b)%nat ∨ (_End b ≤ _End a)%nat) ∧
  (_Start a = _Start b → (i < j)%nat → (_End a ≤ _End b)%nat).
Proof.
  intros Harcs Ha Hb Hacca Haccb. split.
  - pose proof (cover_arcs_inv InSize UnkId arcs Harcs)
      as (_ & _ & _ & _ & Hlam & _).
    apply Hlam; [by exists i|by exists j].
  - intros Hstart Hij.
    assert (Forall (λ a, (_Start a ≤ _End a < InSize)%nat) (take (S j) arcs))
      as Htake by (by apply Forall_take).
    pose proof (cover_arcs_inv InSize UnkId _ Htake)
      as (_ & _ & _ & _ & _ & _ & Hmax & _).
    specialize (Hmax a). rewrite Hstart in Hmax.
    rewrite (accepted_at_tos InSize UnkId arcs j b) in Hmax by done.
    apply Hmax. exists i. rewrite lookup_take_lt by lia.
    split; [done|]. by rewrite accepted_at_take by lia.
Qed.

Lemma merged_arcs_never_straddle_witness :
  let arcs :=
    [mkArc 0 0 1; mkArc 0 1 2; mkArc 1 1 3; mkArc 0 2 4; mkArc 2 2 100] in
  ((_Start (mkArc 0 1 2) < _Start (mkArc 0 2 4))%nat →
   (_End (mkArc 0 1 2) < _Start (mkArc 0 2 4))%nat ∨
   (_End (mkArc 0 2 4) ≤ _End (mkArc 0 1 2))%nat) ∧
  (_Start (mkArc 0 1 2) = _Start (mkArc 0 2 4) → (1 < 3)%nat →
   (_End (mkArc 0 1 2) ≤ _End (mkArc 0 2 4))%nat).
Proof.
  intros arcs.
  apply (merged_arcs_never_straddle 3 100 arcs 1 3).
  - unfold arcs. repeat (constructor; [simpl; lia|]). constructor.
  - done.
  - done.
  - by vm_compute.
  - by vm_compute.
Defined.

(** ** Unknown arcs when [UnkId] is not a token id *)

Section UnknownArcs.
Context `{M : Model}.

Lemma enumerated_unk_nil pIn UnkId : enumerated_unk pIn UnkId 0 [].
Proof.
  split; [by intros a ?%elem_of_nil|]. split; [|done].
  intros i j a b _ Ha. done.
Qed.

Lemma enumerated_unk_step front Iw suffix UnkId arcs found :
  let pIn := front ++ Iw :: suffix in
  let start := length front in
  unk_id_unused pIn UnkId →
  model_scan [] (Iw :: suffix) start start = Some found →
  enumerated_unk pIn UnkId start arcs →
  enumerated_unk pIn UnkId (S start)
    (if bool_decide (found = [])
     then fallback arcs start UnkId else arcs ++ found).
Proof.
  intros pIn start Hunused Hscan (Hunk & Hord & Hlast).
  assert (length pIn = start + S (length suffix))%nat as Hlen
    by (unfold pIn, start; rewrite length_app; simpl; lia).
  assert (∀ a, a ∈ found ↔
            ∃ k id, (k < S (length suffix))%nat ∧
                    a = mkArc start (start + k) id ∧
                    verdict (sub pIn start (start + k)) = Match id) as Hfound.
  { intros a. rewrite (model_scan_Some _ _ _ _ _ a Hscan). simpl.
    unfold pIn, start. by setoid_rewrite sub_at. }
  assert (∀ a, a ∈ found → _Id a ≠ UnkId) as Hids.
  { intros a (k & id & Hk & -> & Hv)%Hfound. simpl. intros ->.
    by apply (Hunused start (start + k)%nat); [lia|]. }
  case_bool_decide as Hnil.
  - subst found.
    assert (unmatched_from pIn start) as Hstart.
    { intros e id He Hv. apply (elem_of_nil (mkArc start e id)), Hfound.
      exists (e - start)%nat, id.
      replace (start + (e - start))%nat with e by lia.
      split; [lia|done]. }
    rewrite fallback_last. destruct (last arcs) as [a0|] eqn:Ha0.
    2:{ apply last_None in Ha0 as ->. split; [|split].
        - intros a ->%list_elem_of_singleton _. simpl. split; [lia|].
          intros q Hq. by replace q with start by lia.
        - intros [|i] [|[|j]] a b Hij; try lia; done.
        - intros l [= <-] _. done. }
    pose proof Ha0 as Ha0'. rewrite last_lookup in Ha0'.
    pose proof (lookup_lt_Some _ _ _ Ha0') as Hlt.
    case_decide as Hid0.
    + specialize (Hlast a0 eq_refl Hid0).
      destruct (Hunk a0 (last_Some_elem_of _ _ Ha0) Hid0) as [_ Hspan0].
      split; [|split].
      * intros a (i & Hi)%list_elem_of_lookup_1 Hid.
        apply list_lookup_insert_Some in Hi
          as [(_ & <- & _)|(_ & Hi%list_elem_of_lookup_2)].
        -- simpl. split; [lia|]. intros q Hq.
           destruct (decide (q = start)) as [->|]; [done|].
           apply Hspan0. lia.
        -- destruct (Hunk a Hi Hid) as [? ?]. split; [lia|done].
      * intros i j a b Hij Hi Hj Hida Hidb.
        apply list_lookup_insert_Some in Hi as [(<- & _ & _)|(Hni & Hi)].
        { apply lookup_lt_Some in Hj. rewrite length_insert in Hj. lia. }
        apply list_lookup_insert_Some in Hj as [(<- & <- & _)|(Hnj & Hj)].
        -- simpl. by apply (Hord i (pred (length arcs)) a a0).
        -- by apply (Hord i j a b).
      * intros l Hl _. rewrite last_lookup, length_insert in Hl.
        rewrite list_lookup_insert_eq in Hl by done. by simplify_eq.
    + split; [|split].
      * intros a [Ha| ->%list_elem_of_singleton]%elem_of_app Hid.
        -- destruct (Hunk a Ha Hid) as [? ?]. split; [lia|done].
        -- simpl. split; [lia|]. intros q Hq. by replace q with start by lia.
      * intros i j a b Hij Hi Hj Hida Hidb.
        apply lookup_app_Some in Hi as [Hi|[Hge Hi]].
        2:{ apply lookup_lt_Some in Hj. rewrite length_app in Hj.
            simpl in Hj. lia. }
        apply lookup_app_Some in Hj as [Hj|[Hge Hj]].
        -- by apply (Hord i j a b).
        -- apply list_elem_of_lookup_2, list_elem_of_singleton in Hj as ->.
           simpl. by apply (Hunk a (list_elem_of_lookup_2 _ _ _ Hi)).
      * intros l Hl _. rewrite last_snoc in Hl. by simplify_eq.
  - split; [|split].
    + intros a [Ha|Ha]%elem_of_app Hid; [|by destruct (Hids a Ha)].
      destruct (Hunk a Ha Hid) as [? ?]. split; [lia|done].
    + intros i j a b Hij Hi Hj Hida Hidb.
      apply lookup_app_Some in Hi as [Hi|[_ Hi%list_elem_of_lookup_2]];
        [|by destruct (Hids a Hi)].
      apply lookup_app_Some in Hj as [Hj|[_ Hj%list_elem_of_lookup_2]];
        [|by destruct (Hids b Hj)].
      by apply (Hord i j a b).
    + intros l Hl Hid. rewrite last_app in Hl.
      destruct (last found) as [l'|] eqn:Hl'.
      * simplify_eq. by destruct (Hids l (last_Some_elem_of _ _ Hl')).
      * by apply last_None in Hl'.
Qed.

Lemma populate_enumerated_unk suffix :
  ∀ front UnkId arcs arcs',
    unk_id_unused (front ++ suffix) UnkId →
    populate suffix (length front) UnkId arcs = Some arcs' →
    enumerated_unk (front ++ suffix) UnkId (length front) arcs →
    enumerated_unk (front ++ suffix) UnkId (length (front ++ suffix)) arcs'.
Proof.
  induction suffix as [|Iw suffix IH];
    intros front UnkId arcs arcs' Hunused Hpop Hinv.
  { simpl in Hpop. simplify_eq. by rewrite (right_id_L [] (++)) in *. }
  cbn [populate] in Hpop. rewrite scan_at in Hpop.
  destruct (model_scan [] (Iw :: suffix) (length front) (length front))
    as [found|] eqn:Hscan; [|done].
  simpl in Hpop.
  pose proof (enumerated_unk_step front Iw suffix UnkId arcs found
                Hunused Hscan Hinv) as Hstep.
  rewrite cons_middle, (assoc_L (++)) in *.
  assert (length (front ++ [Iw]) = S (length front)) as Hlen
    by (rewrite length_app; simpl; lia).
  apply (IH (front ++ [Iw]) UnkId
           (if bool_decide (found = [])
            then fallback arcs (length front) UnkId else arcs ++ found)).
  - done.
  - rewrite Hlen, <-Hpop. f_equal.
    case_bool_decide as Hnil; [|done]. subst found.
    by rewrite (right_id_L [] (++)).
  - by rewrite Hlen.
Qed.
End UnknownArcs.

Lemma populate_well_covered `{M : Model} pIn UnkId arcs :
  populate pIn 0 UnkId [] = Some arcs →
  unk_id_unused pIn UnkId → unit_closed pIn →
  well_covered (length pIn) arcs.
Proof.
  intros Hpop Hunused Hclosed p Hp.
  destruct (populate_enumerated pIn [] UnkId [] arcs Hpop
              (enumerated_nil pIn UnkId)) as (Hsound & Hcomplete & Hcover).
  destruct (populate_enumerated_unk pIn [] UnkId [] arcs Hunused Hpop
              (enumerated_unk_nil pIn UnkId)) as (Hunk & Hord & _).
  simpl in *. rewrite Forall_forall in Hsound.
  destruct (verdict (sub pIn p p)) as [|id|] eqn:Hv.
  2:{ left. exists (mkArc p p id). split; [|done].
      apply Hcomplete; [lia|lia|done|]. intros ->.
      by apply (Hunused p p); [lia|]. }
  all: right.
  all: assert (unmatched_from pIn p) as Hfree
         by (intros e id He Hv';
             destruct (Hclosed p e id p He Hv') as [id' Hid']; [lia|];
             congruence).
  all: destruct (Hcover p Hp Hfree) as (a & Ha & Hid & Hin).
  all: exists a; split; [done|]; split; [done|].
  all: destruct (Hsound a Ha) as [(Hse & He & _) _].
  all: intros b Hb; destruct (Hsound b Hb) as [(Hse' & He' & _) Hb'].
  all: destruct (decide (_Id b = UnkId)) as [Hidb|Hidb].
  all: try (apply list_elem_of_lookup_1 in Ha as [i Hi];
            apply list_elem_of_lookup_1 in Hb as [j Hj];
            destruct (Nat.lt_total i j) as [Hlt|[->|Hgt]];
            [right; right; by apply (Hord i j a b)
            |left; congruence
            |right; left; by apply (Hord j i b a)]).
  all: destruct Hb' as [?|Hvb]; [done|].
  all: destruct (decide (_End b < _Start a)%nat); [by right; left|].
  all: destruct (decide (_End a < _Start b)%nat); [by right; right|].
  all: exfalso.
  all: destruct (Hclosed (_Start b) (_End b) (_Id b)
                   (_Start a `max` _Start b)%nat) as [id' Hid'];
         [lia|done|lia|].
  all: destruct (Hunk a Ha Hid) as [_ Hspan].
  all: by apply (Hspan (_Start a `max` _Start b)%nat
                   ltac:(lia) (_Start a `max` _Start b)%nat id');
         [lia|].
Qed.

(** ** Inputs on which the call is sure to return *)

(** X10.  Total correctness on closed vocabularies.  Suppose that every
    code unit inside an accepted substring of the input is itself accepted
    (as it is when the vocabulary contains every symbol its tokens are
    made of), that [UnkId] is not the id of an accepted substring, and
    that no accepted substring lacks its info.  Then a call on the whole
    input, with [0 < InSize <= MaxArrSize], returns after at most [InSize]
    turns of the copy loop, for every conforming sort, and the triples it
    produces form a contiguous partition of [0, InSize - 1]. *)
Theorem Process_total_on_closed_vocabulary
    `{L : FALimits} `{M : Model} `{Q : QSort}
    fuel pIn pOut MaxOutSize UnkId :
  let InSize := Z.of_nat (length pIn) in
  0 < InSize ≤ MaxArrSize →
  unit_closed pIn →
  unk_id_unused pIn UnkId →
  (∀ s e, (s ≤ e < length pIn)%nat → verdict (sub pIn s e) ≠ MissingInfo) →
  (length pIn ≤ fuel)%nat →
  ∃ ts,
    segment fuel pIn InSize UnkId = Triples ts ∧
    partitions 0 (length pIn) ts ∧
    Process fuel pIn InSize pOut MaxOutSize UnkId =
      Returned (3 * Z.of_nat (length ts)) (store_fitting MaxOutSize ts 0 pOut).
Proof.
  intros InSize Hsize Hclosed Hunused Hinfo Hfuel.
  destruct (populate pIn 0 UnkId []) as [arcs|] eqn:Hpop.
  2:{ apply populate_aborts_iff in Hpop as (s & e & Hse & Hv).
      by destruct (Hinfo s e Hse). }
  assert (Forall (λ a, (_Start a ≤ _End a < length pIn)%nat) (qsort arcs))
    as Hrange by (rewrite qsort_perm; by apply populate_in_range in Hpop).
  assert (well_covered (length pIn) (qsort arcs)) as Hcov.
  { pose proof (populate_well_covered _ _ _ Hpop Hunused Hclosed) as Hcov.
    intros p Hp.
    destruct (Hcov p Hp) as [(a & Ha & ?)|(a & Ha & ? & Hiso)]; [left|right];
      exists a; (split; [by rewrite qsort_perm|]); [done|].
    split; [done|]. intros b Hb. apply Hiso. by rewrite qsort_perm in Hb. }
  destruct (cover_walk_total (length pIn) UnkId (qsort arcs) fuel
              Hrange Hcov Hfuel) as (ts & Hrec & Hpart).
  assert (segment fuel pIn InSize UnkId = Triples ts) as Hseg.
  { unfold segment, InSize in *.
    destruct (Z.geb_spec 0 (Z.of_nat (length pIn))); [lia|].
    destruct (Z.leb_spec (Z.of_nat (length pIn)) MaxArrSize); [|lia].
    rewrite Nat2Z.id, take_ge by done. by rewrite Hpop, Hrec. }
  exists ts. split; [done|]. split; [done|].
  by rewrite Process_deliver, Hseg.
Qed.

Lemma Process_total_on_closed_vocabulary_witness :
  ∃ ts,
    @segment small_limits scenario_model stable_qsort
      4 (codes "xxab") (Z.of_nat (length (codes "xxab"))) 100 = Triples ts ∧
    partitions 0 (length (codes "xxab")) ts ∧
    @Process small_limits scenario_model stable_qsort
      4 (codes "xxab") (Z.of_nat (length (codes "xxab"))) [7; 7; 7] 3 100 =
      Returned (3 * Z.of_nat (length ts)) (store_fitting 3 ts 0 [7; 7; 7]).
Proof.
  apply (@Process_total_on_closed_vocabulary
           small_limits scenario_model stable_qsort).
  - simpl. lia.
  - intros s e id q Hse Hv Hq. simpl in Hse.
    destruct s as [|[|[|[|s]]]]; destruct e as [|[|[|[|e]]]]; try lia;
      vm_compute in Hv; try discriminate;
      destruct q as [|[|[|[|q]]]]; try lia; eexists; vm_compute; reflexivity.
  - intros s e Hse. simpl in Hse.
    destruct s as [|[|[|[|s]]]]; destruct e as [|[|[|[|e]]]]; try lia;
      by vm_compute.
  - intros s e Hse. simpl in Hse.
    destruct s as [|[|[|[|s]]]]; destruct e as [|[|[|[|e]]]]; try lia;
      by vm_compute.
  - simpl. lia.
Defined.

(** ** Independence of the sort *)

Section DistinctKeys.
Context `{M : Model}.

Lemma model_scan_keys pre rest start i :
  (∀ k1 k2 id,
     (k1 < length rest)%nat → (k2 < length rest)%nat →
     verdict (pre ++ take (S k1) rest) = Match id →
     verdict (pre ++ take (S k2) rest) = Match id → k1 = k2) →
  ∀ found,
    model_scan pre rest start i = Some found → NoDup (arc_key <$> found).
Proof.
  revert pre i. induction rest as [|Iw rest IH]; intros pre i Hinj found.
  { intros [= <-]. constructor. }
  assert (∀ k1 k2 id,
     (k1 < length rest)%nat → (k2 < length rest)%nat →
     verdict ((pre ++ [Iw]) ++ take (S k1) rest) = Match id →
     verdict ((pre ++ [Iw]) ++ take (S k2) rest) = Match id → k1 = k2)
    as Hinj'.
  { intros k1 k2 id Hk1 Hk2 Hv1 Hv2. rewrite <-!(assoc_L (++)) in *.
    assert (S k1 = S k2); [|lia].
    apply (Hinj (S k1) (S k2) id); simpl; (lia || done). }
  cbn [model_scan].
  destruct (verdict (pre ++ [Iw])) as [|id|] eqn:Hv; [|
    |done].
  - by apply IH.
  - destruct (model_scan (pre ++ [Iw]) rest start (S i)) as [found'|] eqn:Hrec;
      [|done].
    intros [= <-]. rewrite fmap_cons. apply NoDup_cons. split; [|by eapply IH].
    intros (a & Hkey & Ha)%list_elem_of_fmap.
    apply (model_scan_Some _ _ _ _ _ a Hrec) in Ha
      as (k & id' & Hk & -> & Hv').
    unfold arc_key in Hkey. simpl in Hkey. simplify_eq.
    rewrite <-(assoc_L (++)) in Hv'.
    assert (0 = S k)%nat; [|lia].
    apply (Hinj 0%nat (S k) id'); simpl; (lia || done).
Qed.

Lemma fallback_keys arcs start UnkId :
  arc_key <$> fallback arcs start UnkId = arc_key <$> arcs ∨
  arc_key <$> fallback arcs start UnkId =
    (arc_key <$> arcs) ++ [(UnkId, start)].
Proof.
  rewrite fallback_last. destruct (last arcs) as [a|] eqn:Ha.
  - case_decide.
    + left. rewrite list_fmap_insert. apply list_insert_id.
      rewrite last_lookup in Ha. by rewrite list_lookup_fmap, Ha.
    + right. by rewrite fmap_app.
  - right. by rewrite fmap_app.
Qed.

Lemma populate_keys_distinct suffix :
  ∀ front UnkId arcs arcs',
    ids_distinct_per_start (front ++ suffix) →
    populate suffix (length front) UnkId arcs = Some arcs' →
    Forall (λ a, (_Start a < length front)%nat) arcs →
    keys_distinct arcs → keys_distinct arcs'.
Proof.
  induction suffix as [|Iw suffix IH];
    intros front UnkId arcs arcs' Hinj Hpop Hstarts Hkeys.
  { simpl in Hpop. by simplify_eq. }
  cbn [populate] in Hpop. rewrite scan_at in Hpop.
  destruct (model_scan [] (Iw :: suffix) (length front) (length front))
    as [found|] eqn:Hscan; [|done].
  simpl in Hpop.
  assert (length (front ++ Iw :: suffix)
            = length front + S (length suffix))%nat as Hlen'
    by (rewrite length_app; simpl; lia).
  assert (∀ a, a ∈ found → _Start a = length front) as Hfound.
  { intros a (k & id & _ & -> & _)%(model_scan_Some _ _ _ _ _ a Hscan). done. }
  assert (NoDup (arc_key <$> found)) as Hnodup.
  { eapply model_scan_keys; [|done].
    intros k1 k2 id Hk1 Hk2 Hv1 Hv2.
    rewrite <-(sub_at front (Iw :: suffix)) in Hv1, Hv2.
    assert (length front + k1 = length front + k2)%nat; [|lia].
    apply (Hinj (length front) _ _ id); [simpl in *; lia..|done|done]. }
  rewrite cons_middle, (assoc_L (++)) in Hinj.
  assert (length (front ++ [Iw]) = S (length front)) as Hlen
    by (rewrite length_app; simpl; lia).
  apply (IH (front ++ [Iw]) UnkId
           (if bool_decide (found = [])
            then fallback arcs (length front) UnkId else arcs ++ found)).
  - done.
  - rewrite Hlen, <-Hpop. f_equal.
    case_bool_decide as Hnil; [|done]. subst found.
    by rewrite (right_id_L [] (++)).
  - rewrite Hlen. case_bool_decide.
    + rewrite fallback_last. destruct (last arcs) as [a|] eqn:Ha.
      * pose proof (last_Some_elem_of _ _ Ha) as Hin.
        rewrite Forall_forall in Hstarts. apply Hstarts in Hin.
        case_decide.
        -- apply Forall_insert; [|simpl; lia].
           apply Forall_forall. intros b ?%Hstarts. lia.
        -- apply Forall_app_2; [|apply Forall_singleton; simpl; lia].
           apply Forall_forall. intros b ?%Hstarts. lia.
      * apply Forall_app_2; [|apply Forall_singleton; simpl; lia].
        eapply Forall_impl; [done|]. simpl. lia.
    + apply Forall_app_2.
      * eapply Forall_impl; [done|]. simpl. lia.
      * apply Forall_forall. intros a ->%Hfound. lia.
  - unfold keys_distinct in *. case_bool_decide.
    + destruct (fallback_keys arcs (length front) UnkId) as [->| ->]; [done|].
      apply NoDup_app. split; [done|]. split; [|apply NoDup_singleton].
      intros key (a & -> & Ha)%list_elem_of_fmap ?%list_elem_of_singleton.
      rewrite Forall_forall in Hstarts. apply Hstarts in Ha.
      unfold arc_key in *. simplify_eq. lia.
    + rewrite fmap_app. apply NoDup_app. split; [done|]. split; [|done].
      intros key (a & -> & Ha)%list_elem_of_fmap
             (b & Hkey & Hb%Hfound)%list_elem_of_fmap.
      rewrite Forall_forall in Hstarts. apply Hstarts in Ha.
      unfold arc_key in *. simplify_eq. lia.
Qed.
End DistinctKeys.


(** X11.  When no two accepted substrings of the processed input that
    start at the same position carry the same id (the vocabulary has no
    duplicate ids), the outcome of a call does not depend on which
    conforming sort [std::qsort] happens to be: any two sorts that return
    an ordered permutation give the same return value and the same
    buffer.  This holds for every [UnkId], also one that is the id of a
    vocabulary entry. *)
Theorem Process_sort_independent `{L : FALimits} `{M : Model}
    (Q1 Q2 : QSort) fuel pIn InSize pOut MaxOutSize UnkId :
  ids_distinct_per_start (take (Z.to_nat InSize) pIn) →
  @Process L M Q1 fuel pIn InSize pOut MaxOutSize UnkId =
  @Process L M Q2 fuel pIn InSize pOut MaxOutSize UnkId.
Proof.
  intros Hinj. unfold Process.
  destruct (0 >=? InSize); [done|].
  unfold LogAssert. destruct (InSize <=? MaxArrSize); [|done].
  cbv zeta.
  destruct (populate (take (Z.to_nat InSize) pIn) 0 UnkId []) as [arcs|]
    eqn:Hpop; [|done].
  assert (keys_distinct arcs) as Hkeys.
  { apply (populate_keys_distinct (take (Z.to_nat InSize) pIn) []
             UnkId [] arcs); [done|done|constructor|constructor]. }
  by rewrite (@qsort_unique Q1), (@qsort_unique Q2).
Qed.

Lemma Process_sort_independent_witness :
  @Process small_limits scenario_model stable_qsort
    4 (codes "abxb") 4 [7; 7; 7; 7; 7; 7] 6 100 =
  @Process small_limits scenario_model reversing_qsort
    4 (codes "abxb") 4 [7; 7; 7; 7; 7; 7] 6 100.
Proof.
  apply (@Process_sort_independent small_limits scenario_model).
  intros s e1 e2 id H1 H2 Hv1 Hv2. simpl in H1, H2.
  destruct s as [|[|[|[|s]]]]; destruct e1 as [|[|[|[|e1]]]]; try lia;
    vm_compute in Hv1; try discriminate;
    destruct e2 as [|[|[|[|e2]]]]; try lia;
    vm_compute in Hv2; congruence.
Defined.


(** ** The cover loop stays inside its tables *)

(** X12.  Every arc the cover loop is given, whatever the sort, satisfies
    [_Start <= _End < InSize]: the reads of [pIntermediate [Start]] and,
    when [End + 1 <> InSize], of [pIntermediate [End + 1]], the writes of
    [pTos [Start]] and [pIds [Start]] and the [memset] of [End - Start]
    bytes from [Start + 1] all fall inside tables of [InSize] entries,
    and [pTos] and [pIds] still have [InSize] entries after the loop. *)
Theorem cover_loop_in_bounds `{M : Model} `{Q : QSort} pIn n UnkId arcs :
  populate (take n pIn) 0 UnkId [] = Some arcs →
  let c := cover_arcs n (qsort arcs) (cover_init n UnkId) in
  Forall (λ a, (_Start a ≤ _End a < n)%nat) (qsort arcs) ∧
  length (pTos c) = n ∧ length (pIds c) = n.
Proof.
  intros Hpop c. split; [by eapply qsort_in_range|].
  subst c.
  destruct (cover_arcs_lengths n (qsort arcs) (cover_init n UnkId))
    as [-> ->].
  unfold cover_init. simpl. by rewrite !length_replicate.
Qed.

Lemma cover_loop_in_bounds_witness :
  let arcs := [mkArc 0 0 1; mkArc 0 1 2; mkArc 1 1 3; mkArc 2 2 100] in
  let c := cover_arcs 3 (@qsort reversing_qsort arcs) (cover_init 3 100) in
  Forall (λ a, (_Start a ≤ _End a < 3)%nat) (@qsort reversing_qsort arcs) ∧
  length (pTos c) = 3%nat ∧ length (pIds c) = 3%nat.
Proof.
  apply (@cover_loop_in_bounds scenario_model reversing_qsort
           (codes "abxb") 3 100).
  by vm_compute.
Defined.
